(** * rclone [fs/encodings]: the registry of backend filename encodings

    A verification development for [fs/encodings/encodings.go].  The file
    declares one [encoder.MultiEncoder] constant per backend, resolves a
    backend name to its constant ([ByName]), picks the encoding of the local
    backend from the platform ([Local]) and lists the known names ([Names]).

    The package [lib/encoder] that implements [MultiEncoder] lives elsewhere
    in the repository; the part of it that the properties below need is
    modelled in module [encoder]. *)

From Stdlib Require Import NArith PeanoNat Bool List Lia.
From Stdlib.Strings Require Import Ascii String Byte.
Import ListNotations.

Local Open Scope N_scope.

(* ================================================================== *)
(** ** Package [lib/encoder]: flags and masks *)

Module encoder.

(** [type MultiEncoder uint]: a bit mask of encoding flags. *)
Definition MultiEncoder := N.

(** Modelled from the spec: the flag constants of [lib/encoder], which the
    source imports but which are declared in another package.  One bit per
    rule of the rule table, in the order of that table. *)
Definition EncodeZero          : N := N.shiftl 1 0.
Definition EncodeSlash         : N := N.shiftl 1 1.
Definition EncodeWin           : N := N.shiftl 1 2.
Definition EncodeBackSlash     : N := N.shiftl 1 3.
Definition EncodeDel           : N := N.shiftl 1 4.
Definition EncodeCtl           : N := N.shiftl 1 5.
Definition EncodeLeftSpace     : N := N.shiftl 1 6.
Definition EncodeRightSpace    : N := N.shiftl 1 7.
Definition EncodeLeftPeriod    : N := N.shiftl 1 8.
Definition EncodeRightPeriod   : N := N.shiftl 1 9.
Definition EncodeLeftTilde     : N := N.shiftl 1 10.
Definition EncodeLeftCrLfHtVt  : N := N.shiftl 1 11.
Definition EncodeRightCrLfHtVt : N := N.shiftl 1 12.
Definition EncodeHashPercent   : N := N.shiftl 1 13.
Definition EncodeInvalidUtf8   : N := N.shiftl 1 14.

(** Every flag of the rule table. *)
Definition allFlags : list N :=
  [ EncodeZero; EncodeSlash; EncodeWin; EncodeBackSlash; EncodeDel; EncodeCtl;
    EncodeLeftSpace; EncodeRightSpace; EncodeLeftPeriod; EncodeRightPeriod;
    EncodeLeftTilde; EncodeLeftCrLfHtVt; EncodeRightCrLfHtVt;
    EncodeHashPercent; EncodeInvalidUtf8 ].

(** Modelled from the spec: the membership test of [lib/encoder], a flag
    is active in a mask when the mask has its bit. *)
Definition Has (mask : MultiEncoder) (flag : N) : bool :=
  negb (N.land mask flag =? 0).

(** *** Names as byte sequences

    A Go string is a sequence of bytes, not necessarily valid UTF-8. *)

Definition Name := list byte.

Definition code (b : byte) : N := Byte.to_N b.

Definition byteOf (n : N) : byte :=
  match Byte.of_N n with Some b => b | None => x00 end.

(** A UTF-8 continuation byte, [0x80..0xBF]. *)
Definition isCont (b : byte) : bool := (0x80 <=? code b) && (code b <=? 0xBF).

Definition isASCIIByte (b : byte) : bool := code b <? 0x80.

(** *** The triggers of the rule table *)

(** The Windows-reserved set of the rule table (less-than, greater-than,
    colon, double quote, question mark, asterisk), with the vertical line
    that the replacement lists in [encodings.go] add to it. *)
Definition isWin (b : byte) : bool :=
  Byte.eqb b x3c || Byte.eqb b x3e || Byte.eqb b x3a || Byte.eqb b x22 ||
  Byte.eqb b x3f || Byte.eqb b x2a || Byte.eqb b x7c.

Definition isCtl (b : byte) : bool := code b <? 0x20.

Definition isHashPercent (b : byte) : bool :=
  Byte.eqb b x23 || Byte.eqb b x25.

Definition isCrLfHtVt (b : byte) : bool :=
  Byte.eqb b x0d || Byte.eqb b x0a || Byte.eqb b x09 || Byte.eqb b x0b.

(** Modelled from the spec: the content-level rules of [lib/encoder]
    (Zero, Slash, Win, BackSlash, Del, Ctl, HashPercent): the byte is
    substituted wherever it stands. *)
Definition contentTrigger (m : MultiEncoder) (b : byte) : bool :=
  (Byte.eqb b x00 && Has m EncodeZero) ||
  (Byte.eqb b x2f && Has m EncodeSlash) ||
  (isWin b && Has m EncodeWin) ||
  (Byte.eqb b x5c && Has m EncodeBackSlash) ||
  (Byte.eqb b x7f && Has m EncodeDel) ||
  (isCtl b && Has m EncodeCtl) ||
  (isHashPercent b && Has m EncodeHashPercent).

(** Modelled from the spec: the rules of [lib/encoder] on the leading
    character of a name. *)
Definition leftTrigger (m : MultiEncoder) (b : byte) : bool :=
  (Byte.eqb b x20 && Has m EncodeLeftSpace) ||
  (Byte.eqb b x2e && Has m EncodeLeftPeriod) ||
  (Byte.eqb b x7e && Has m EncodeLeftTilde) ||
  (isCrLfHtVt b && Has m EncodeLeftCrLfHtVt).

(** Modelled from the spec: the rules of [lib/encoder] on the trailing
    character of a name. *)
Definition rightTrigger (m : MultiEncoder) (b : byte) : bool :=
  (Byte.eqb b x20 && Has m EncodeRightSpace) ||
  (Byte.eqb b x2e && Has m EncodeRightPeriod) ||
  (isCrLfHtVt b && Has m EncodeRightCrLfHtVt).

(** *** The substitute of a character

    Modelled from the spec: the table of substitutes of [lib/encoder], as the
    UTF-8 bytes of the substitute.  A control character, the space and DEL
    go to the SYMBOL FOR block ([U+2400 + c], DEL to [U+2421]); a printable
    character goes to its FULLWIDTH form ([U+FEE0 + c]).  The replacement
    lists in the comments of [encodings.go] show entries of this table. *)
Definition substitute (b : byte) : list byte :=
  let n := code b in
  if n <=? 0x20 then [xe2; x90; byteOf (0x80 + n)]
  else if n =? 0x7F then [xe2; x90; xa1]
  else if n <? 0x60 then [xef; xbc; byteOf (0x80 + (n - 0x20))]
  else [xef; xbd; byteOf (0x80 + (n - 0x60))].

(** The character whose substitute is the three bytes [a b c], if any. *)
Definition unsubstitute (a b c : byte) : option byte :=
  let n := code c in
  match a, b with
  | xe2, x90 =>
      if (0x80 <=? n) && (n <=? 0xA0) then Some (byteOf (n - 0x80))
      else if n =? 0xA1 then Some x7f
      else None
  | xef, xbc =>
      if (0x81 <=? n) && (n <=? 0xBF) then Some (byteOf (n - 0x80 + 0x20))
      else None
  | xef, xbd =>
      if (0x80 <=? n) && (n <=? 0x9E) then Some (byteOf (n - 0x80 + 0x60))
      else None
  | _, _ => None
  end.

(** *** Invalid UTF-8

    [runeLen s] is the width of the UTF-8 sequence at the head of [s] as Go's
    [utf8.DecodeRune] accepts it (no overlong forms, no surrogates, nothing
    above [U+10FFFF]); [0] when the first byte does not start one. *)
Definition inRange (lo hi : N) (b : byte) : bool :=
  (lo <=? code b) && (code b <=? hi).

Definition twoOk (b0 b1 : byte) : bool := inRange 0xC2 0xDF b0 && isCont b1.

Definition threeOk (b0 b1 b2 : byte) : bool :=
  ((Byte.eqb b0 xe0 && inRange 0xA0 0xBF b1) ||
   ((inRange 0xE1 0xEC b0 || inRange 0xEE 0xEF b0) && isCont b1) ||
   (Byte.eqb b0 xed && inRange 0x80 0x9F b1)) && isCont b2.

Definition fourOk (b0 b1 b2 b3 : byte) : bool :=
  ((Byte.eqb b0 xf0 && inRange 0x90 0xBF b1) ||
   (inRange 0xF1 0xF3 b0 && isCont b1) ||
   (Byte.eqb b0 xf4 && inRange 0x80 0x8F b1)) && isCont b2 && isCont b3.

Definition runeLen (s : Name) : nat :=
  match s with
  | [] => 0%nat
  | b0 :: r =>
      if isASCIIByte b0 then 1%nat else
      match r with
      | [] => 0%nat
      | b1 :: r1 =>
          if twoOk b0 b1 then 2%nat else
          match r1 with
          | [] => 0%nat
          | b2 :: r2 =>
              if threeOk b0 b1 b2 then 3%nat else
              match r2 with
              | [] => 0%nat
              | b3 :: _ => if fourOk b0 b1 b2 b3 then 4%nat else 0%nat
              end
          end
      end
  end.

(** Modelled from the spec: the escape of [lib/encoder] for a byte that is
    not part of valid UTF-8, a private sequence of two characters: the
    marker [U+201B] followed by the character whose code point is the value
    of the byte. *)
Definition marker : list byte := [xe2; x80; x9b].

Definition escapeByte (b : byte) : list byte :=
  marker ++ [byteOf (0xC0 + code b / 64); byteOf (0x80 + code b mod 64)].

(** The byte that the five bytes at the head of [s] escape, if they are an
    escape. *)
Definition unescapeAt (s : Name) : option byte :=
  match s with
  | xe2 :: x80 :: x9b :: c :: d :: _ =>
      if (Byte.eqb c xc2 || Byte.eqb c xc3) && isCont d
      then Some (byteOf ((code c - 0xC0) * 64 + (code d - 0x80)))
      else None
  | _ => None
  end.

(** *** Reserved sequences already in the name

    Modelled from the spec: two names never get the same encoded form, for
    any mask.  A name may hold, as its own bytes, a sequence that the encoded
    form reserves: the substitute of a character that an active rule targets,
    or the marker.  Such a sequence is quoted before the rules apply: it is
    written as the marker followed by a character that names it, [U+0100 + c]
    for the substitute of the character [c] and [U+0180] for the marker.  The
    spec asks for an encoding without ambiguity and leaves the bytes of a
    quoted sequence to the table of [lib/encoder]; the characters chosen
    here keep apart what can follow the marker: [U+0080..U+00FF] for an
    escaped byte, [U+0100..U+017F] for a substitute, [U+0180] for the marker.
    The quoted text holds no substitute of a targeted character and no
    escape, so the rules and their inverses work on it undisturbed. *)

(** Some rule of [m] targets the character. *)
Definition anyTrigger (m : MultiEncoder) (t : byte) : bool :=
  contentTrigger m t || leftTrigger m t || rightTrigger m t.

(** Modelled from the spec: the two bytes of [U+0100 + t], which stand
    after the marker for the substitute of [t]. *)
Definition quoteCode (t : byte) : list byte :=
  [byteOf (0xC4 + code t / 64); byteOf (0x80 + code t mod 64)].

(** Modelled from the spec: the two bytes of [U+0180], which stand after
    the marker for the marker. *)
Definition quoteMarker : list byte := [xc6; x80].

(** Modelled from the spec: what stands after the marker for the three
    bytes at the head of [s], if they are reserved under [m]. *)
Definition quoteAt (m : MultiEncoder) (s : Name) : option (list byte) :=
  match s with
  | a :: b :: c :: _ =>
      if Byte.eqb a xe2 && Byte.eqb b x80 && Byte.eqb c x9b
      then Some quoteMarker
      else match unsubstitute a b c with
           | Some t => if anyTrigger m t then Some (quoteCode t) else None
           | None => None
           end
  | _ => None
  end.

(** Modelled from the spec: the name with its reserved sequences quoted.
    [k] bytes of a sequence already quoted are still to be skipped. *)
Fixpoint quoteReserved (m : MultiEncoder) (k : nat) (s : Name) : Name :=
  match s with
  | [] => []
  | b :: r =>
      match k with
      | S k' => quoteReserved m k' r
      | O =>
          match quoteAt m s with
          | Some q => marker ++ q ++ quoteReserved m 2 r
          | None => b :: quoteReserved m 0 r
          end
      end
  end.

(** Modelled from the spec: the three bytes that the five bytes at the head
    of [s] quote, if they are a quoted sequence. *)
Definition unquoteAt (s : Name) : option (list byte) :=
  match s with
  | xe2 :: x80 :: x9b :: c :: d :: _ =>
      if Byte.eqb c xc6 && Byte.eqb d x80 then Some marker
      else if (Byte.eqb c xc4 || Byte.eqb c xc5) && isCont d
      then Some (substitute (byteOf ((code c - 0xC4) * 64 + (code d - 0x80))))
      else None
  | _ => None
  end.

(** Modelled from the spec: the inverse of [quoteReserved].  [k] bytes of
    a quoted sequence already read are still to be skipped. *)
Fixpoint unquoteReserved (k : nat) (s : Name) : Name :=
  match s with
  | [] => []
  | b :: r =>
      match k with
      | S k' => unquoteReserved k' r
      | O =>
          match unquoteAt s with
          | Some q => q ++ unquoteReserved 4 r
          | None => b :: unquoteReserved 0 r
          end
      end
  end.

(** *** Encode

    Modelled from the spec: [MultiEncoder.Encode] of [lib/encoder].  On the
    name with its reserved sequences quoted, the content-level rules come
    first, then the rules on the first and on the last character of each
    segment of the content-encoded name, and the escape of invalid UTF-8
    last. *)
Definition encodeContent (m : MultiEncoder) (s : Name) : Name :=
  flat_map (fun b => if contentTrigger m b then substitute b else [b]) s.

Definition encodeLeft (m : MultiEncoder) (s : Name) : Name :=
  match s with
  | [] => []
  | b :: r => if leftTrigger m b then substitute b ++ r else s
  end.

(** The name without its last byte, and that byte. *)
Definition unsnoc (s : Name) : option (Name * byte) :=
  match rev s with
  | [] => None
  | e :: ri => Some (rev ri, e)
  end.

Definition encodeRight (m : MultiEncoder) (s : Name) : Name :=
  match unsnoc s with
  | None => s
  | Some (i, e) => if rightTrigger m e then i ++ substitute e else s
  end.

(** The segments of a name: the parts between the slashes that the content
    rules have left in it.  Modelled from the spec: the rules on the leading
    and the trailing character apply to each segment on its own. *)
Definition isSlash (b : byte) : bool := Byte.eqb b x2f.

Fixpoint segments (s : Name) : list Name :=
  match s with
  | [] => [[]]
  | b :: r =>
      if isSlash b then [] :: segments r
      else match segments r with
           | [] => [[b]]
           | seg :: rest => (b :: seg) :: rest
           end
  end.

Fixpoint joinSegments (l : list Name) : Name :=
  match l with
  | [] => []
  | seg :: rest =>
      match rest with
      | [] => seg
      | _ :: _ => seg ++ x2f :: joinSegments rest
      end
  end.

Definition onSegments (f : Name -> Name) (s : Name) : Name :=
  joinSegments (map f (segments s)).

Definition encodePosition (m : MultiEncoder) (s : Name) : Name :=
  onSegments (fun seg => encodeRight m (encodeLeft m seg)) s.

(** [k] bytes of an accepted UTF-8 sequence are still to be copied. *)
Fixpoint escapeInvalid (k : nat) (s : Name) : Name :=
  match s with
  | [] => []
  | b :: r =>
      match k with
      | S k' => b :: escapeInvalid k' r
      | O =>
          match runeLen s with
          | O => escapeByte b ++ escapeInvalid 0 r
          | S n => b :: escapeInvalid n r
          end
      end
  end.

(** Modelled from the spec: the three phases of the rules, in the order
    of the spec. *)
Definition encodeRules (m : MultiEncoder) (s : Name) : Name :=
  let s' := encodePosition m (encodeContent m s) in
  if Has m EncodeInvalidUtf8 then escapeInvalid 0 s' else s'.

Definition Encode (m : MultiEncoder) (s : Name) : Name :=
  encodeRules m (quoteReserved m 0 s).

(** *** Decode

    Modelled from the spec: [MultiEncoder.Decode] of [lib/encoder]: the
    inverse of every active rule, in the reverse order, and the quoted
    sequences restored last. *)

(** [k] bytes of an escape already decoded are still to be skipped. *)
Fixpoint unescapeInvalid (k : nat) (s : Name) : Name :=
  match s with
  | [] => []
  | b :: r =>
      match k with
      | S k' => unescapeInvalid k' r
      | O =>
          match unescapeAt s with
          | Some x => x :: unescapeInvalid 4 r
          | None => b :: unescapeInvalid 0 r
          end
      end
  end.

(** The name without its last three bytes, and those bytes. *)
Definition unsnoc3 (s : Name) : option (Name * byte * byte * byte) :=
  match rev s with
  | c :: b :: a :: ri => Some (rev ri, a, b, c)
  | _ => None
  end.

Definition decodeRight (m : MultiEncoder) (s : Name) : Name :=
  match unsnoc3 s with
  | Some (i, a, b, c) =>
      match unsubstitute a b c with
      | Some t => if rightTrigger m t then i ++ [t] else s
      | None => s
      end
  | None => s
  end.

Definition decodeLeft (m : MultiEncoder) (s : Name) : Name :=
  match s with
  | a :: b :: c :: r =>
      match unsubstitute a b c with
      | Some t => if leftTrigger m t then t :: r else s
      | None => s
      end
  | _ => s
  end.

Definition decodePosition (m : MultiEncoder) (s : Name) : Name :=
  onSegments (fun seg => decodeLeft m (decodeRight m seg)) s.

(** The character substituted at the head of [s] by an active content rule. *)
Definition contentAt (m : MultiEncoder) (s : Name) : option byte :=
  match s with
  | a :: b :: c :: _ =>
      match unsubstitute a b c with
      | Some t => if contentTrigger m t then Some t else None
      | None => None
      end
  | _ => None
  end.

Fixpoint decodeContent (m : MultiEncoder) (k : nat) (s : Name) : Name :=
  match s with
  | [] => []
  | b :: r =>
      match k with
      | S k' => decodeContent m k' r
      | O =>
          match contentAt m s with
          | Some t => t :: decodeContent m 2 r
          | None => b :: decodeContent m 0 r
          end
      end
  end.

(** Modelled from the spec: the inverses of the three phases of the rules,
    in the reverse order. *)
Definition decodeRules (m : MultiEncoder) (s : Name) : Name :=
  let s' := if Has m EncodeInvalidUtf8 then unescapeInvalid 0 s else s in
  decodeContent m 0 (decodePosition m s').

Definition Decode (m : MultiEncoder) (s : Name) : Name :=
  unquoteReserved 0 (decodeRules m s).

(** *** Reserved sequences

    The three bytes [a b c] are reserved under [m]: the substitute of a
    character that a rule of [m] targets, or the escape marker when [m]
    escapes invalid UTF-8. *)
Definition reserved (m : MultiEncoder) (a b c : byte) : bool :=
  match unsubstitute a b c with
  | Some t => contentTrigger m t || leftTrigger m t || rightTrigger m t
  | None => false
  end
  || (Has m EncodeInvalidUtf8 &&
      Byte.eqb a xe2 && Byte.eqb b x80 && Byte.eqb c x9b).

Definition reservedAt (m : MultiEncoder) (s : Name) : bool :=
  match s with
  | a :: b :: c :: _ => reserved m a b c
  | _ => false
  end.

(** No reserved sequence occurs anywhere in the name. *)
Fixpoint reservedFree (m : MultiEncoder) (s : Name) : bool :=
  match s with
  | [] => true
  | _ :: r => negb (reservedAt m s) && reservedFree m r
  end.

(** The bytes of a string literal. *)
Definition bytes (s : string) : Name := list_byte_of_string s.

End encoder.

(* ================================================================== *)
(** ** Go's [strings.ToLower] *)

Module strings.

Definition isUpper (c : ascii) : bool :=
  (65 <=? N_of_ascii c) && (N_of_ascii c <=? 90).

(** [c + ('a' - 'A')] for an upper case ASCII letter. *)
Definition lowerByte (c : ascii) : ascii :=
  if isUpper c then ascii_of_N (N_of_ascii c + 32) else c.

(** [c < utf8.RuneSelf] for every byte of the string. *)
Fixpoint isASCII (s : string) : bool :=
  match s with
  | EmptyString => true
  | String c r => (N_of_ascii c <? 128) && isASCII r
  end.

Fixpoint mapBytes (f : ascii -> ascii) (s : string) : string :=
  match s with
  | EmptyString => EmptyString
  | String c r => String (f c) (mapBytes f r)
  end.

Section ToLower.

(** [strings.Map(unicode.ToLower, s)], the path Go takes for a string with
    a byte outside ASCII.  It is driven by the Unicode case tables of Go's
    standard library, so it is taken as given. *)
Variable unicodeLower : string -> string.

(** [strings.ToLower]: ASCII-only strings are lowered byte by byte, all
    others go through the Unicode tables. *)
Definition ToLower (s : string) : string :=
  if isASCII s then mapBytes lowerByte s else unicodeLower s.

End ToLower.

End strings.

(* ================================================================== *)
(** ** Package [fs/encodings] *)

Module encodings.

Import encoder.
Local Open Scope string_scope.

(** [const Base = encoder.MultiEncoder(encoder.EncodeZero | encoder.EncodeSlash)] *)
Definition Base : MultiEncoder := N.lor EncodeZero EncodeSlash.

(** [const LocalUnix = Base] *)
Definition LocalUnix : MultiEncoder := Base.

Definition LocalWindows : MultiEncoder :=
  N.lor (N.lor (N.lor (N.lor (N.lor (N.lor Base
    EncodeWin) EncodeBackSlash) EncodeCtl) EncodeRightSpace)
    EncodeRightPeriod) EncodeInvalidUtf8.

Definition AmazonCloudDrive : MultiEncoder := N.lor Base EncodeInvalidUtf8.

Definition Drive : MultiEncoder := EncodeInvalidUtf8.

Definition Dropbox : MultiEncoder :=
  N.lor (N.lor (N.lor (N.lor Base
    EncodeBackSlash) EncodeDel) EncodeRightSpace) EncodeInvalidUtf8.

Definition GoogleCloudStorage : MultiEncoder := N.lor Base EncodeInvalidUtf8.

Definition Mega : MultiEncoder := N.lor Base EncodeInvalidUtf8.

Definition OpenDrive : MultiEncoder :=
  N.lor (N.lor (N.lor (N.lor (N.lor (N.lor (N.lor Base
    EncodeWin) EncodeLeftCrLfHtVt) EncodeRightCrLfHtVt) EncodeBackSlash)
    EncodeLeftSpace) EncodeRightSpace) EncodeInvalidUtf8.

Definition Pcloud : MultiEncoder := N.lor Base EncodeInvalidUtf8.

Section Registry.

(** [encoder.Standard], a constant of [lib/encoder] whose value the source
    of this package does not show: any mask. *)
Variable Standard : MultiEncoder.

(** [runtime.GOOS], the platform the program runs on. *)
Variable GOOS : string.

(** The Unicode path of [strings.ToLower]. *)
Variable unicodeLower : string -> string.

(** [const Display = encoder.Standard] *)
Definition Display : MultiEncoder := Standard.

Definition B2 : MultiEncoder :=
  N.lor (N.lor Display EncodeBackSlash) EncodeInvalidUtf8.

Definition Box : MultiEncoder :=
  N.lor (N.lor (N.lor Display EncodeBackSlash) EncodeRightSpace)
    EncodeInvalidUtf8.

Definition JottaCloud : MultiEncoder := N.lor Display EncodeInvalidUtf8.

Definition Koofr : MultiEncoder :=
  N.lor (N.lor Display EncodeBackSlash) EncodeInvalidUtf8.

Definition OneDrive : MultiEncoder :=
  N.lor (N.lor (N.lor (N.lor (N.lor (N.lor (N.lor (N.lor Display
    EncodeBackSlash) EncodeHashPercent) EncodeLeftSpace) EncodeLeftTilde)
    EncodeRightPeriod) EncodeRightSpace) EncodeWin) EncodeInvalidUtf8.

(** [func Local() encoder.MultiEncoder] *)
Definition Local : MultiEncoder :=
  if String.eqb GOOS "windows" then LocalWindows else LocalUnix.

(** [func ByName(name string) encoder.Encoder]: the [switch] on the lowered
    name, case by case in source order; [None] is Go's [nil]. *)
Definition ByName (name : string) : option MultiEncoder :=
  let n := strings.ToLower unicodeLower name in
  if String.eqb n "base" then Some Base
  else if String.eqb n "display" then Some Display
  else if String.eqb n "amazonclouddrive" then Some AmazonCloudDrive
  else if String.eqb n "b2" then Some B2
  else if String.eqb n "box" then Some Box
  else if String.eqb n "drive" then Some Drive
  else if String.eqb n "dropbox" then Some Dropbox
  else if String.eqb n "googlecloudstorage" then Some GoogleCloudStorage
  else if String.eqb n "jottacloud" then Some JottaCloud
  else if String.eqb n "koofr" then Some Koofr
  else if String.eqb n "local" then Some Local
  else if String.eqb n "local-windows" || String.eqb n "windows"
    then Some LocalWindows
  else if String.eqb n "local-unix" || String.eqb n "unix"
    then Some LocalUnix
  else if String.eqb n "mega" then Some Mega
  else if String.eqb n "onedrive" then Some OneDrive
  else if String.eqb n "opendrive" then Some OpenDrive
  else if String.eqb n "pcloud" then Some Pcloud
  else None.

End Registry.

(** [func Names() []string]: the elements of the slice literal. *)
Definition Names : list string :=
  [ "base"; "display"; "amazonclouddrive"; "b2"; "box"; "drive"; "dropbox";
    "googlecloudstorage"; "jottacloud"; "koofr"; "local-unix";
    "local-windows"; "local"; "mega"; "onedrive"; "opendrive"; "pcloud" ].

(** The case labels of the [switch] in [ByName], in source order. *)
Definition caseLabels : list string :=
  [ "base"; "display"; "amazonclouddrive"; "b2"; "box"; "drive"; "dropbox";
    "googlecloudstorage"; "jottacloud"; "koofr"; "local"; "local-windows";
    "windows"; "local-unix"; "unix"; "mega"; "onedrive"; "opendrive";
    "pcloud" ].

(** *** The registry as a caller sees it

    Go allocates the slice literal of [Names] afresh on every call and hands
    the caller a reference to it; a caller may then write into the slice it
    holds.  The heap holds the slices allocated so far, addressed by their
    index. *)
Definition Heap := list (list string).
Definition Slice := nat.

Definition load (h : Heap) (p : Slice) : option (list string) := nth_error h p.

Fixpoint setNth {A} (i : nat) (v : A) (l : list A) : list A :=
  match l, i with
  | [], _ => []
  | _ :: r, O => v :: r
  | x :: r, S i' => x :: setNth i' v r
  end.

(** [names[i] = v] on the slice at [p]; out of range it panics and the heap
    stays as it is. *)
Definition store (h : Heap) (p : Slice) (i : nat) (v : string) : Heap :=
  match nth_error h p with
  | Some sl => setNth p (setNth i v sl) h
  | None => h
  end.

Inductive Op :=
| CallByName (name : string)
| CallLocal
| CallNames
| CallEncode (m : MultiEncoder) (s : Name)
| CallDecode (m : MultiEncoder) (s : Name)
| CallerWrite (p : Slice) (i : nat) (v : string).

Inductive Result :=
| RetEncoder (e : option MultiEncoder)
| RetLocal (e : MultiEncoder)
| RetSlice (p : Slice)
| RetName (s : Name)
| RetUnit.

Section Calls.

Variable Standard : MultiEncoder.
Variable GOOS : string.
Variable unicodeLower : string -> string.

(** One operation on the heap: its result and the heap it leaves. *)
Definition exec (op : Op) (h : Heap) : Result * Heap :=
  match op with
  | CallByName name => (RetEncoder (ByName Standard GOOS unicodeLower name), h)
  | CallLocal => (RetLocal (Local GOOS), h)
  | CallNames => (RetSlice (List.length h), (h ++ [Names])%list)
  | CallEncode m s => (RetName (Encode m s), h)
  | CallDecode m s => (RetName (Decode m s), h)
  | CallerWrite p i v => (RetUnit, store h p i v)
  end.

(** The heap after a history of operations. *)
Fixpoint run (ops : list Op) (h : Heap) : Heap :=
  match ops with
  | [] => h
  | op :: rest => run rest (snd (exec op h))
  end.

End Calls.

End encodings.

(* ================================================================== *)
(** ** Marked names: the bookkeeping of the round-trip proof *)

Module marked.

Import encoder.
Local Open Scope list_scope.

(** The first byte of a substitute and of the escape marker. *)
Definition isLead (b : byte) : bool := Byte.eqb b xe2 || Byte.eqb b xef.

(** *** Names with their substituted positions marked

    A marked name lists the bytes of a name, each with a flag: the byte is
    written as its substitute.  [render] is the text, [erase] the name. *)
Definition Marked := list (bool * byte).

Definition chunk (x : bool * byte) : Name :=
  if fst x then substitute (snd x) else [snd x].

Definition render (l : Marked) : Name := flat_map chunk l.

Definition erase (l : Marked) : Name := map snd l.

(** Only ASCII bytes are marked. *)
Definition good (l : Marked) : Prop :=
  Forall (fun x => fst x = true -> isASCIIByte (snd x) = true) l.

(** *** Operations on the marks *)

Definition onHead (g : bool * byte -> bool * byte) (l : Marked) : Marked :=
  match l with
  | [] => []
  | x :: r => g x :: r
  end.

Fixpoint onLast (g : bool * byte -> bool * byte) (l : Marked) : Marked :=
  match l with
  | [] => []
  | x :: r => match r with [] => [g x] | _ :: _ => x :: onLast g r end
  end.

Definition mark (m : MultiEncoder) (s : Name) : Marked :=
  map (fun b => (contentTrigger m b, b)) s.

Definition setL m (x : bool * byte) := (fst x || leftTrigger m (snd x), snd x).
Definition setR m (x : bool * byte) := (fst x || rightTrigger m (snd x), snd x).
Definition clrL m (x : bool * byte) :=
  (fst x && negb (leftTrigger m (snd x)), snd x).
Definition clrR m (x : bool * byte) :=
  (fst x && negb (rightTrigger m (snd x)), snd x).

(** [g] keeps the byte and marks ASCII bytes only. *)
Definition tame (g : bool * byte -> bool * byte) : Prop :=
  forall x, snd (g x) = snd x /\
            ((fst x = true -> isASCIIByte (snd x) = true) ->
             fst (g x) = true -> isASCIIByte (snd x) = true).

(** Every mark is the mark of a content rule. *)
Definition allContent (m : MultiEncoder) (l : Marked) : Prop :=
  Forall (fun x => fst x = true -> contentTrigger m (snd x) = true) l.

(** The substitute of a character that a rule of [m] targets stands at the
    head of the text. *)
Definition subAt (m : MultiEncoder) (s : Name) : bool :=
  match s with
  | a :: b :: c :: _ =>
      match unsubstitute a b c with
      | Some t => anyTrigger m t
      | None => false
      end
  | _ => false
  end.

(** No such substitute occurs anywhere in the text. *)
Fixpoint subFree (m : MultiEncoder) (s : Name) : bool :=
  match s with
  | [] => true
  | _ :: r => negb (subAt m s) && subFree m r
  end.

(** An escape stands at the head of the text. *)
Definition escAt (s : Name) : bool :=
  match unescapeAt s with Some _ => true | None => false end.

(** No escape occurs anywhere in the text. *)
Fixpoint escFree (s : Name) : bool :=
  match s with
  | [] => true
  | _ :: r => negb (escAt s) && escFree r
  end.

(** The first [k] bytes are continuation bytes. *)
Fixpoint conts (k : nat) (s : Name) : bool :=
  match k with
  | O => true
  | S k' => match s with
            | [] => false
            | b :: r => isCont b && conts k' r
            end
  end.

(** *** The segments of a marked name

    A slash that is not marked separates two segments. *)
Definition isSep (x : bool * byte) : bool := negb (fst x) && isSlash (snd x).

Fixpoint msegments (l : Marked) : list Marked :=
  match l with
  | [] => [[]]
  | x :: r =>
      if isSep x then [] :: msegments r
      else match msegments r with
           | [] => [[x]]
           | seg :: rest => (x :: seg) :: rest
           end
  end.

Fixpoint mjoin (ls : list Marked) : Marked :=
  match ls with
  | [] => []
  | seg :: rest =>
      match rest with
      | [] => seg
      | _ :: _ => seg ++ (false, x2f) :: mjoin rest
      end
  end.

(** No byte of the segment is a separator. *)
Definition noSep (l : Marked) : Prop := Forall (fun x => isSep x = false) l.

(** The position rules on the marks of a segment, and their inverses. *)
Definition posSet (m : MultiEncoder) (l : Marked) : Marked :=
  onLast (setR m) (onHead (setL m) l).

Definition posClr (m : MultiEncoder) (l : Marked) : Marked :=
  onHead (clrL m) (onLast (clrR m) l).

(** [g] makes no separator. *)
Definition keepsSegments (g : bool * byte -> bool * byte) : Prop :=
  forall x, isSep x = false -> isSep (g x) = false.

(** A byte that no content rule of [m] targets and that is ASCII. *)
Definition plainFor (m : MultiEncoder) (b : byte) : bool :=
  isASCIIByte b && negb (contentTrigger m b).

End marked.

(* ================================================================== *)
(** ** What an encoded name looks like: definitions *)

Module conformance.

Import encoder.
Local Open Scope list_scope.

(** [P] activates every flag of [Q]. *)
Definition extends (P Q : MultiEncoder) : Prop := N.land P Q = Q.

(** A letter, a digit or the hyphen. *)
Definition isLabelByte (c : ascii) : bool :=
  let n := N_of_ascii c in
  ((65 <=? n) && (n <=? 90)) || ((97 <=? n) && (n <=? 122)) ||
  ((48 <=? n) && (n <=? 57)) || (n =? 45).

(** Go's [utf8.Valid]: the name is a sequence of accepted UTF-8 sequences.
    [k] bytes of an accepted sequence are still to be passed. *)
Fixpoint validFrom (k : nat) (s : Name) : bool :=
  match s with
  | [] => match k with O => true | S _ => false end
  | b :: r =>
      match k with
      | S k' => validFrom k' r
      | O => match runeLen s with
             | O => false
             | S n => validFrom n r
             end
      end
  end.

Definition validUTF8 (s : Name) : bool := validFrom 0 s.

(** The last byte of a name. *)
Fixpoint lastByte (s : Name) : option byte :=
  match s with
  | [] => None
  | b :: r => match r with [] => Some b | _ :: _ => lastByte r end
  end.

(** The characters that the comments of [encodings.go] list as replaced
    for the Windows naming rules: less-than, greater-than, colon, double
    quote, backslash, vertical line, question mark, asterisk. *)
Definition windowsReserved : list byte :=
  [x3c; x3e; x3a; x22; x5c; x7c; x3f; x2a].

(** A printable ASCII character, [0x20..0x7E]. *)
Definition isPrintable (b : byte) : bool :=
  (0x20 <=? code b) && (code b <? 0x7F).

(** The ASCII whitespace that the comment of [OpenDrive] lists: space,
    horizontal tab, line feed, vertical tab, carriage return. *)
Definition asciiWhitespace : list byte := [x20; x09; x0a; x0b; x0d].

(** The three UTF-8 bytes of a code point in [U+0800..U+FFFF]. *)
Definition utf8Rune3 (cp : N) : list byte :=
  [ byteOf (0xE0 + cp / 4096); byteOf (0x80 + (cp / 64) mod 64);
    byteOf (0x80 + cp mod 64) ].

(** The replacement lists in the comments of [encodings.go]: a character
    and the code point of the character that replaces it. *)
Definition documentedReplacements : list (byte * N) :=
  [ (x3c, 0xFF1C); (x3e, 0xFF1E); (x3a, 0xFF1A); (x22, 0xFF02);
    (x5c, 0xFF3C); (x7c, 0xFF5C); (x3f, 0xFF1F); (x2a, 0xFF0A);
    (x23, 0xFF03); (x25, 0xFF05); (x7e, 0xFF5E); (x2e, 0xFF0E);
    (x20, 0x2420); (x09, 0x2409); (x0a, 0x240A); (x0b, 0x240B);
    (x0d, 0x240D) ].

End conformance.

(* ================================================================== *)
(** ** Properties of [strings.ToLower] *)

Module strings_facts.

Import strings.

Lemma lowerByte_idem (c : ascii) : lowerByte (lowerByte c) = lowerByte c.
Proof. destruct c as [[] [] [] [] [] [] [] []]; reflexivity. Qed.

Lemma lowerByte_ascii (c : ascii) :
  (N_of_ascii c <? 128) = true -> (N_of_ascii (lowerByte c) <? 128) = true.
Proof. destruct c as [[] [] [] [] [] [] [] []]; intros H; exact H || reflexivity. Qed.

Lemma isASCII_lowered (s : string) :
  isASCII s = true -> isASCII (mapBytes lowerByte s) = true.
Proof.
  induction s as [|c r IH]; simpl; [reflexivity|].
  intros H. apply andb_true_iff in H. destruct H as [Hc Hr].
  rewrite (lowerByte_ascii c Hc), (IH Hr). reflexivity.
Qed.

Lemma mapBytes_lower_idem (s : string) :
  mapBytes lowerByte (mapBytes lowerByte s) = mapBytes lowerByte s.
Proof.
  induction s as [|c r IH]; simpl; [reflexivity|].
  now rewrite lowerByte_idem, IH.
Qed.

(** Lowering a lowered name changes nothing, provided that is so for what
    the Unicode path returns when the name takes that path. *)
Lemma ToLower_idem (unicodeLower : string -> string) (s : string) :
  (isASCII s = false ->
   ToLower unicodeLower (unicodeLower s) = unicodeLower s) ->
  ToLower unicodeLower (ToLower unicodeLower s) = ToLower unicodeLower s.
Proof.
  intros stable. unfold ToLower at 2 3. destruct (isASCII s) eqn:Hs.
  - unfold ToLower. rewrite (isASCII_lowered s Hs).
    apply mapBytes_lower_idem.
  - now apply stable.
Qed.

End strings_facts.

(* ================================================================== *)
(** ** [Decode] after [Encode] *)

Module roundtrip_facts.

Import encoder marked.
Local Open Scope list_scope.

Lemma unsubstitute_shape a b c t :
  unsubstitute a b c = Some t ->
  isLead a = true /\ isCont b = true /\ isCont c = true /\
  isASCIIByte t = true /\ substitute t = [a; b; c].
Proof.
  destruct a; try discriminate; destruct b; try discriminate;
  destruct c; try discriminate; intros H; injection H as <-; repeat split.
Qed.

Lemma substitute_inv t :
  isASCIIByte t = true ->
  exists a b c, substitute t = [a; b; c] /\ unsubstitute a b c = Some t.
Proof.
  destruct t; try discriminate; intros _; do 3 eexists; split; reflexivity.
Qed.

Lemma lead_not_cont a : isLead a = true -> isCont a = false.
Proof. destruct a; try discriminate; reflexivity. Qed.

Lemma lead_not_ascii a : isLead a = true -> isASCIIByte a = false.
Proof. destruct a; try discriminate; reflexivity. Qed.

Lemma cont_not_ascii a : isCont a = true -> isASCIIByte a = false.
Proof. destruct a; try discriminate; reflexivity. Qed.

Lemma contentTrigger_ascii m b :
  contentTrigger m b = true -> isASCIIByte b = true.
Proof. destruct b; try reflexivity; intros H; vm_compute in H; discriminate. Qed.

Lemma leftTrigger_ascii m b : leftTrigger m b = true -> isASCIIByte b = true.
Proof. destruct b; try reflexivity; intros H; vm_compute in H; discriminate. Qed.

Lemma rightTrigger_ascii m b : rightTrigger m b = true -> isASCIIByte b = true.
Proof. destruct b; try reflexivity; intros H; vm_compute in H; discriminate. Qed.

Lemma byte_eqb_eq a b : Byte.eqb a b = true -> a = b.
Proof. apply Byte.byte_dec_bl. Qed.

(** *** The last bytes of a name *)

Lemma unsnoc_app (l : Name) x : unsnoc (l ++ [x]) = Some (l, x).
Proof. unfold unsnoc. rewrite rev_unit, rev_involutive. reflexivity. Qed.

Lemma unsnoc3_app (i : Name) a b c :
  unsnoc3 (i ++ [a; b; c]) = Some (i, a, b, c).
Proof.
  unfold unsnoc3. rewrite rev_app_distr. simpl.
  rewrite rev_involutive. reflexivity.
Qed.

Lemma unsnoc3_inv s i a b c :
  unsnoc3 s = Some (i, a, b, c) -> s = i ++ [a; b; c].
Proof.
  unfold unsnoc3. intros H.
  destruct (rev s) as [|c' [|b' [|a' ri]]] eqn:E; try discriminate.
  injection H as <- <- <- <-.
  rewrite <- (rev_involutive s), E. simpl.
  rewrite <- !app_assoc. reflexivity.
Qed.

Lemma render_app l1 l2 : render (l1 ++ l2) = render l1 ++ render l2.
Proof. apply flat_map_app. Qed.

Lemma erase_app l1 l2 : erase (l1 ++ l2) = erase l1 ++ erase l2.
Proof. apply map_app. Qed.

Lemma good_app l1 l2 : good (l1 ++ l2) <-> good l1 /\ good l2.
Proof. apply Forall_app. Qed.

Lemma substitute_chunk t :
  isASCIIByte t = true ->
  exists x y z, substitute t = [x; y; z] /\ unsubstitute x y z = Some t /\
                isLead x = true /\ isCont y = true /\ isCont z = true.
Proof.
  intros H. destruct (substitute_inv t H) as (x & y & z & Hs & Hu).
  exists x, y, z. destruct (unsubstitute_shape _ _ _ _ Hu) as (? & ? & ? & _).
  repeat split; assumption.
Qed.

Ltac clash :=
  match goal with
  | L : isLead ?a = true, C : isCont ?a = true |- _ =>
      rewrite (lead_not_cont a L) in C; discriminate C
  end.

(** A window at the head of the text that has the shape of a substitute is
    a marked byte, or three bytes of the name itself. *)
Lemma render_head l a b c rest :
  good l -> render l = a :: b :: c :: rest ->
  isLead a = true -> isCont b = true -> isCont c = true ->
  (exists t l', l = (true, t) :: l' /\ substitute t = [a; b; c] /\
                rest = render l') \/
  (exists l', l = (false, a) :: (false, b) :: (false, c) :: l' /\
              rest = render l').
Proof.
  intros G E La Cb Cc.
  destruct l as [|[[] b1] l1]; [discriminate| |].
  - inversion_clear G as [|? ? G1 G']. 
    destruct (substitute_chunk b1 (G1 eq_refl)) as (x & y & z & Hs & _).
    cbn in E. rewrite Hs in E. injection E as -> -> -> <-.
    left. eauto.
  - inversion_clear G as [|? ? _ G']. cbn in E. injection E as -> E.
    destruct l1 as [|[[] b2] l2]; [discriminate| |].
    + inversion_clear G' as [|? ? G2 _].
      destruct (substitute_chunk b2 (G2 eq_refl)) as (x & y & z & Hs & _ & L & _).
      cbn in E. rewrite Hs in E. injection E as -> _. clash.
    + inversion_clear G' as [|? ? _ G'']. cbn in E. injection E as -> E.
      destruct l2 as [|[[] b3] l3]; [discriminate| |].
      * inversion_clear G'' as [|? ? G3 _].
        destruct (substitute_chunk b3 (G3 eq_refl))
          as (x & y & z & Hs & _ & L & _).
        cbn in E. rewrite Hs in E. injection E as -> _. clash.
      * cbn in E. injection E as -> E. right. eauto.
Qed.

Lemma snoc_case (A : Type) (l : list A) :
  l = [] \/ exists l' x, l = l' ++ [x].
Proof.
  destruct l as [|a l]; [now left|right].
  destruct (exists_last (l := a :: l)) as (l' & x & E); [discriminate|eauto].
Qed.

Lemma snoc3_inj (A : Type) (x y : list A) a b c a' b' c' :
  x ++ [a; b; c] = y ++ [a'; b'; c'] ->
  x = y /\ a = a' /\ b = b' /\ c = c'.
Proof.
  intros H. apply (f_equal (@rev A)) in H.
  rewrite !rev_app_distr in H. simpl in H.
  injection H as -> -> -> H. apply (f_equal (@rev A)) in H.
  rewrite !rev_involutive in H. auto.
Qed.

(** The same for a window at the end of the text. *)
Lemma render_last l i a b c :
  good l -> render l = i ++ [a; b; c] ->
  isLead a = true -> isCont b = true -> isCont c = true ->
  (exists t l', l = l' ++ [(true, t)] /\ substitute t = [a; b; c] /\
                i = render l') \/
  (exists l', l = l' ++ [(false, a); (false, b); (false, c)] /\
              i = render l').
Proof.
  intros G E La Cb Cc.
  destruct (snoc_case _ l) as [->|(l1 & [[] b1] & ->)].
  - destruct i; discriminate.
  - apply good_app in G. destruct G as [G' G1]. inversion_clear G1 as [|? ? G1' _].
    destruct (substitute_chunk b1 (G1' eq_refl)) as (x & y & z & Hs & _).
    rewrite render_app in E. cbn in E. rewrite Hs, app_nil_r in E.
    apply snoc3_inj in E. destruct E as (Ei & -> & -> & ->).
    left. exists b1, l1. auto.
  - apply good_app in G. destruct G as [G' _].
    rewrite render_app in E. cbn in E.
    change (i ++ [a; b; c]) with (i ++ [a; b] ++ [c]) in E.
    rewrite app_assoc in E. apply app_inj_tail in E. destruct E as [E ->].
    destruct (snoc_case _ l1) as [->|(l2 & [[] b2] & ->)].
    + destruct i; discriminate.
    + apply good_app in G'. destruct G' as [_ G2].
      inversion_clear G2 as [|? ? G2' _].
      destruct (substitute_chunk b2 (G2' eq_refl))
        as (x & y & z & Hs & _ & _ & Cy & _).
      rewrite render_app in E. cbn in E. rewrite Hs, app_nil_r in E.
      change (i ++ [a; b]) with (i ++ [a] ++ [b]) in E.
      change [x; y; z] with ([x; y] ++ [z]) in E.
      rewrite !app_assoc in E. apply app_inj_tail in E. destruct E as [E ->].
      change [x; y] with ([x] ++ [y]) in E.
      rewrite app_assoc in E. apply app_inj_tail in E. destruct E as [_ ->].
      clash.
    + apply good_app in G'. destruct G' as [G'' _].
      rewrite render_app in E. cbn in E.
      change (i ++ [a; b]) with (i ++ [a] ++ [b]) in E.
      rewrite app_assoc in E. apply app_inj_tail in E. destruct E as [E ->].
      destruct (snoc_case _ l2) as [->|(l3 & [[] b3] & ->)].
      * destruct i; discriminate.
      * apply good_app in G''. destruct G'' as [_ G3].
        inversion_clear G3 as [|? ? G3' _].
        destruct (substitute_chunk b3 (G3' eq_refl))
          as (x & y & z & Hs & _ & _ & _ & Cz).
        rewrite render_app in E. cbn in E. rewrite Hs, app_nil_r in E.
        change [x; y; z] with ([x; y] ++ [z]) in E.
        rewrite app_assoc in E. apply app_inj_tail in E. destruct E as [_ ->].
        clash.
      * rewrite render_app in E. cbn in E.
        apply app_inj_tail in E. destruct E as [<- ->].
        right. exists l3. rewrite <- !app_assoc. auto.
Qed.

(** *** Texts free of substitutes *)

Lemma free_tail m a r : subFree m (a :: r) = true -> subFree m r = true.
Proof. cbn [subFree]. intros H. apply andb_true_iff in H. tauto. Qed.

Lemma free_head m a b c r t :
  subFree m (a :: b :: c :: r) = true -> unsubstitute a b c = Some t ->
  contentTrigger m t = false /\ leftTrigger m t = false /\
  rightTrigger m t = false.
Proof.
  intros H U.
  change (negb (subAt m (a :: b :: c :: r)) && subFree m (b :: c :: r) = true)
    in H.
  apply andb_true_iff in H. destruct H as [H _]. apply negb_true_iff in H.
  cbn [subAt] in H. rewrite U in H. unfold anyTrigger in H.
  apply orb_false_iff in H. destruct H as [H ?].
  apply orb_false_iff in H. tauto.
Qed.

Lemma free_app_r m x y : subFree m (x ++ y) = true -> subFree m y = true.
Proof.
  induction x as [|a x IH]; [trivial|].
  intros H. apply IH. exact (free_tail _ _ _ H).
Qed.

Lemma free_last m i a b c t :
  subFree m (i ++ [a; b; c]) = true -> unsubstitute a b c = Some t ->
  contentTrigger m t = false /\ leftTrigger m t = false /\
  rightTrigger m t = false.
Proof. intros H. apply free_app_r in H. exact (free_head _ _ _ _ _ _ H). Qed.

Lemma onLast_snoc g l x : onLast g (l ++ [x]) = l ++ [g x].
Proof.
  induction l as [|a l IH]; [reflexivity|].
  cbn [app onLast]. rewrite IH. destruct l; reflexivity.
Qed.

Lemma erase_onHead g l : tame g -> erase (onHead g l) = erase l.
Proof. intros T. destruct l as [|x r]; [reflexivity|]. cbn. now rewrite (proj1 (T x)). Qed.

Lemma erase_onLast g l : tame g -> erase (onLast g l) = erase l.
Proof.
  intros T. destruct (snoc_case _ l) as [->|(l' & x & ->)]; [reflexivity|].
  rewrite onLast_snoc, !erase_app. cbn. now rewrite (proj1 (T x)).
Qed.

Lemma good_onHead g l : tame g -> good l -> good (onHead g l).
Proof.
  intros T G. destruct l as [|x r]; [constructor|].
  inversion_clear G as [|? ? G1 G2]. constructor; [|assumption].
  rewrite (proj1 (T x)). now apply (proj2 (T x)).
Qed.

Lemma good_onLast g l : tame g -> good l -> good (onLast g l).
Proof.
  intros T G. destruct (snoc_case _ l) as [->|(l' & x & ->)]; [constructor|].
  rewrite onLast_snoc. apply good_app in G. destruct G as [G1 G2].
  apply good_app. split; [assumption|]. inversion_clear G2 as [|? ? G3 _].
  constructor; [|constructor].
  rewrite (proj1 (T x)). now apply (proj2 (T x)).
Qed.

Lemma tame_setL m : tame (setL m).
Proof.
  intros [f b]. split; [reflexivity|]. cbn. intros G H.
  apply orb_true_iff in H. destruct H as [H|H]; [auto|].
  exact (leftTrigger_ascii _ _ H).
Qed.

Lemma tame_setR m : tame (setR m).
Proof.
  intros [f b]. split; [reflexivity|]. cbn. intros G H.
  apply orb_true_iff in H. destruct H as [H|H]; [auto|].
  exact (rightTrigger_ascii _ _ H).
Qed.

Lemma tame_clrL m : tame (clrL m).
Proof.
  intros [f b]. split; [reflexivity|]. cbn. intros G H.
  apply andb_true_iff in H. tauto.
Qed.

Lemma tame_clrR m : tame (clrR m).
Proof.
  intros [f b]. split; [reflexivity|]. cbn. intros G H.
  apply andb_true_iff in H. tauto.
Qed.

Lemma good_mark m s : good (mark m s).
Proof.
  apply Forall_forall. intros x Hx. apply in_map_iff in Hx.
  destruct Hx as (b & <- & _). cbn. apply contentTrigger_ascii.
Qed.

Lemma erase_mark m s : erase (mark m s) = s.
Proof.
  unfold erase, mark. rewrite map_map. cbn. apply map_id.
Qed.

(** *** The phases of [Encode] on marked names *)

Lemma encodeContent_render m s : encodeContent m s = render (mark m s).
Proof.
  unfold encodeContent, render, mark. rewrite flat_map_concat_map.
  rewrite (flat_map_concat_map chunk), map_map. reflexivity.
Qed.

Lemma not_ascii_left m b : isASCIIByte b = false -> leftTrigger m b = false.
Proof.
  intros H. destruct (leftTrigger m b) eqn:E; [|reflexivity].
  rewrite (leftTrigger_ascii _ _ E) in H. discriminate.
Qed.

Lemma not_ascii_right m b : isASCIIByte b = false -> rightTrigger m b = false.
Proof.
  intros H. destruct (rightTrigger m b) eqn:E; [|reflexivity].
  rewrite (rightTrigger_ascii _ _ E) in H. discriminate.
Qed.

Lemma encodeLeft_render m l :
  good l -> encodeLeft m (render l) = render (onHead (setL m) l).
Proof.
  intros G. destruct l as [|[[] b] l']; [reflexivity| |].
  - inversion_clear G as [|? ? G1 _].
    destruct (substitute_chunk b (G1 eq_refl)) as (x & y & z & Hs & _ & L & _).
    cbn. rewrite Hs. cbn.
    now rewrite (not_ascii_left m x (lead_not_ascii x L)).
  - cbn. unfold chunk, setL. cbn. destruct (leftTrigger m b); reflexivity.
Qed.

Lemma encodeRight_render m l :
  good l -> encodeRight m (render l) = render (onLast (setR m) l).
Proof.
  intros G. destruct (snoc_case _ l) as [->|(l' & [[] b] & ->)]; [reflexivity| |].
  - apply good_app in G. destruct G as [_ G]. inversion_clear G as [|? ? G1 _].
    destruct (substitute_chunk b (G1 eq_refl))
      as (x & y & z & Hs & _ & _ & _ & Cz).
    rewrite onLast_snoc, !render_app. cbn. rewrite Hs, app_nil_r.
    unfold encodeRight.
    change (render l' ++ [x; y; z]) with (render l' ++ [x; y] ++ [z]).
    rewrite app_assoc, unsnoc_app.
    now rewrite (not_ascii_right m z (cont_not_ascii z Cz)).
  - rewrite onLast_snoc, !render_app. cbn.
    unfold encodeRight. rewrite unsnoc_app.
    unfold chunk, setR. cbn.
    destruct (rightTrigger m b); cbn; rewrite ?app_nil_r; reflexivity.
Qed.

(** *** The phases of [Decode] on marked names *)

Lemma decodeLeft_render m l :
  good l -> subFree m (erase l) = true ->
  decodeLeft m (render l) = render (onHead (clrL m) l).
Proof.
  intros G F. destruct l as [|[[] b] l']; [reflexivity| |].
  - inversion_clear G as [|? ? G1 _].
    destruct (substitute_chunk b (G1 eq_refl)) as (x & y & z & Hs & Hu & _).
    cbn. rewrite Hs. cbn. rewrite Hu.
    unfold chunk, clrL. cbn.
    destruct (leftTrigger m b); cbn; rewrite ?Hs; reflexivity.
  - replace (onHead (clrL m) ((false, b) :: l')) with ((false, b) :: l')
      by reflexivity.
    remember (render ((false, b) :: l')) as s eqn:Es.
    destruct s as [|a1 [|a2 [|a3 rest]]]; try reflexivity.
    cbn [decodeLeft]. destruct (unsubstitute a1 a2 a3) as [t|] eqn:Hu;
      [|reflexivity].
    destruct (leftTrigger m t) eqn:Ht; [exfalso|reflexivity].
    destruct (unsubstitute_shape _ _ _ _ Hu) as (L & C2 & C3 & _).
    destruct (render_head _ _ _ _ _ G (eq_sym Es) L C2 C3)
      as [(t' & l'' & E & _)|(l'' & E & _)]; [discriminate|].
    rewrite E in F. cbn in F.
    destruct (free_head _ _ _ _ _ _ F Hu)
      as (_ & Hl & _).
    congruence.
Qed.

Lemma decodeRight_render m l :
  good l -> subFree m (erase l) = true ->
  decodeRight m (render l) = render (onLast (clrR m) l).
Proof.
  intros G F.
  destruct (snoc_case _ l) as [->|(l' & [[] b] & ->)]; [reflexivity| |].
  - assert (G' := G). apply good_app in G'. destruct G' as [_ G'].
    inversion_clear G' as [|? ? G1 _].
    destruct (substitute_chunk b (G1 eq_refl)) as (x & y & z & Hs & Hu & _).
    rewrite onLast_snoc, !render_app. cbn. rewrite Hs, app_nil_r.
    unfold decodeRight. rewrite unsnoc3_app, Hu.
    unfold chunk, clrR. cbn.
    destruct (rightTrigger m b); cbn; rewrite ?Hs, ?app_nil_r; reflexivity.
  - rewrite onLast_snoc.
    replace (clrR m (false, b)) with (false, b) by reflexivity.
    unfold decodeRight.
    destruct (unsnoc3 (render (l' ++ [(false, b)])))
      as [[[[i a1] a2] a3]|] eqn:Eu; [|reflexivity].
    apply unsnoc3_inv in Eu.
    destruct (unsubstitute a1 a2 a3) as [t|] eqn:Hu; [|reflexivity].
    destruct (rightTrigger m t) eqn:Ht; [exfalso|reflexivity].
    destruct (unsubstitute_shape _ _ _ _ Hu) as (L & C2 & C3 & _).
    destruct (render_last _ _ _ _ _ G Eu L C2 C3)
      as [(t' & l'' & E & _)|(l'' & E & _)].
    + apply app_inj_tail in E. destruct E as [_ E]. discriminate.
    + rewrite E, erase_app in F. cbn in F.
      destruct (free_last _ _ _ _ _ _ F Hu)
        as (_ & _ & Hr).
      congruence.
Qed.

Lemma decodeContent_render m l :
  good l -> allContent m l -> subFree m (erase l) = true ->
  decodeContent m 0 (render l) = erase l.
Proof.
  induction l as [|[[] b] l' IH]; intros G A F; [reflexivity| |].
  - inversion_clear G as [|? ? G1 G']. inversion_clear A as [|? ? A1 A'].
    destruct (substitute_chunk b (G1 eq_refl)) as (x & y & z & Hs & Hu & _).
    cbn [render flat_map chunk fst snd]. rewrite Hs.
    cbn [app decodeContent contentAt]. cbn in A1. rewrite Hu, (A1 eq_refl).
    cbn [erase map snd]. f_equal. apply IH; try assumption.
    exact (free_tail _ _ _ F).
  - assert (G0 := G). inversion_clear G as [|? ? _ G'].
    inversion_clear A as [|? ? _ A'].
    cbn [render flat_map chunk fst snd app].
    cbn [decodeContent].
    assert (N : contentAt m (b :: flat_map chunk l') = None).
    { unfold contentAt.
      destruct (flat_map chunk l') as [|a2 [|a3 rest]] eqn:Er; try reflexivity.
      destruct (unsubstitute b a2 a3) as [t|] eqn:Hu; [|reflexivity].
      destruct (contentTrigger m t) eqn:Ht; [exfalso|reflexivity].
      destruct (unsubstitute_shape _ _ _ _ Hu) as (L & C2 & C3 & _).
      assert (E0 : render ((false, b) :: l') = b :: a2 :: a3 :: rest).
      { cbn. unfold render in *. now rewrite Er. }
      destruct (render_head _ _ _ _ _ G0 E0 L C2 C3)
        as [(t' & l'' & E & _)|(l'' & E & _)]; [discriminate|].
      rewrite E in F. cbn in F.
      destruct (free_head _ _ _ _ _ _ F Hu)
        as (Hc & _).
      congruence. }
    rewrite N. cbn [erase map snd]. f_equal. apply IH; try assumption.
    exact (free_tail _ _ _ F).
Qed.

(** *** The escape of invalid UTF-8 *)

Lemma inRange_cont lo hi b :
  inRange lo hi b = true -> 0x80 <= lo -> hi <= 0xBF -> isCont b = true.
Proof.
  unfold inRange, isCont. intros H Hlo Hhi.
  apply andb_true_iff in H. destruct H as [H1 H2].
  apply N.leb_le in H1, H2. apply andb_true_iff. split; apply N.leb_le; lia.
Qed.

Lemma threeOk_conts b0 b1 b2 :
  threeOk b0 b1 b2 = true -> isCont b1 = true /\ isCont b2 = true.
Proof.
  unfold threeOk. intros H. apply andb_true_iff in H. destruct H as [H ->].
  split; [|reflexivity].
  repeat (apply orb_true_iff in H; destruct H as [H|H]);
    apply andb_true_iff in H; destruct H as [_ H]; try assumption;
    (eapply inRange_cont; [eassumption|lia|lia]).
Qed.

Lemma fourOk_conts b0 b1 b2 b3 :
  fourOk b0 b1 b2 b3 = true ->
  isCont b1 = true /\ isCont b2 = true /\ isCont b3 = true.
Proof.
  unfold fourOk. intros H. apply andb_true_iff in H. destruct H as [H ->].
  apply andb_true_iff in H. destruct H as [H ->].
  split; [|split; reflexivity].
  repeat (apply orb_true_iff in H; destruct H as [H|H]);
    apply andb_true_iff in H; destruct H as [_ H]; try assumption;
    (eapply inRange_cont; [eassumption|lia|lia]).
Qed.

(** An accepted sequence of width [n + 1] continues with [n] continuation
    bytes. *)
Lemma runeLen_conts b r n : runeLen (b :: r) = S n -> conts n r = true.
Proof.
  unfold runeLen. destruct (isASCIIByte b).
  { intros H. injection H as <-. reflexivity. }
  destruct r as [|b1 r1]; [discriminate|].
  destruct (twoOk b b1) eqn:E2.
  { intros H. injection H as <-. cbn. unfold twoOk in E2.
    apply andb_true_iff in E2. destruct E2 as [_ ->]. reflexivity. }
  destruct r1 as [|b2 r2]; [discriminate|].
  destruct (threeOk b b1 b2) eqn:E3.
  { intros H. injection H as <-. cbn.
    destruct (threeOk_conts _ _ _ E3) as [-> ->]. reflexivity. }
  destruct r2 as [|b3 r3]; [discriminate|].
  destruct (fourOk b b1 b2 b3) eqn:E4; [|discriminate].
  intros H. injection H as <-. cbn.
  destruct (fourOk_conts _ _ _ _ E4) as (-> & -> & ->). reflexivity.
Qed.

Lemma runeLen_invalid b r : runeLen (b :: r) = O -> isASCIIByte b = false.
Proof. unfold runeLen. destruct (isASCIIByte b); [discriminate|reflexivity]. Qed.

(** A sequence that starts with the first byte of the marker is three bytes
    wide. *)
Lemma runeLen_e2 r n :
  runeLen (xe2 :: r) = S n ->
  exists b1 b2 r2, r = b1 :: b2 :: r2 /\ n = 2%nat.
Proof.
  unfold runeLen. replace (isASCIIByte xe2) with false by reflexivity.
  destruct r as [|b1 [|b2 r2]]; try discriminate;
    replace (twoOk xe2 b1) with false by reflexivity; try discriminate.
  destruct (threeOk xe2 b1 b2).
  - intros H. injection H as <-. eauto.
  - destruct r2 as [|b3 r3]; [discriminate|].
    replace (fourOk xe2 b1 b2 b3) with false by reflexivity. discriminate.
Qed.

Lemma unescapeAt_not_e2 b r : b <> xe2 -> unescapeAt (b :: r) = None.
Proof. destruct b; try reflexivity. intros H. now elim H. Qed.

Lemma unescapeAt_shape s x :
  unescapeAt s = Some x ->
  exists c d r, s = xe2 :: x80 :: x9b :: c :: d :: r /\
                (Byte.eqb c xc2 || Byte.eqb c xc3) && isCont d = true.
Proof.
  destruct s as [|a0 s]; [discriminate|].
  destruct a0; try (cbn; discriminate).
  destruct s as [|a1 s]; [discriminate|].
  destruct a1; try (cbn; discriminate).
  destruct s as [|a2 s]; [discriminate|].
  destruct a2; try (cbn; discriminate).
  destruct s as [|c [|d r]]; try discriminate.
  cbn [unescapeAt].
  destruct ((Byte.eqb c xc2 || Byte.eqb c xc3) && isCont d) eqn:E;
    [|discriminate].
  intros _. exists c, d, r. split; [reflexivity|exact E].
Qed.

Lemma cont_not_e2 b : isCont b = true -> b <> xe2.
Proof. intros H ->. discriminate H. Qed.

Lemma unescape_step b r :
  isASCIIByte b = false ->
  unescapeInvalid 0 (escapeByte b ++ r) = b :: unescapeInvalid 0 r.
Proof. destruct b; try discriminate; intros _; reflexivity. Qed.

Lemma escAt_not_e2 b r : b <> xe2 -> escAt (b :: r) = false.
Proof. intros H. unfold escAt. now rewrite unescapeAt_not_e2. Qed.

Lemma escFree_tail a r : escFree (a :: r) = true -> escFree r = true.
Proof. cbn [escFree]. intros H. apply andb_true_iff in H. tauto. Qed.

Lemma escFree_head c d r :
  escFree (xe2 :: x80 :: x9b :: c :: d :: r) = true ->
  (Byte.eqb c xc2 || Byte.eqb c xc3) = true -> isCont d = true -> False.
Proof.
  intros H C D.
  change (negb (escAt (xe2 :: x80 :: x9b :: c :: d :: r)) &&
          escFree (x80 :: x9b :: c :: d :: r) = true) in H.
  apply andb_true_iff in H. destruct H as [H _]. apply negb_true_iff in H.
  unfold escAt in H. cbn [unescapeAt] in H. rewrite C, D in H. discriminate.
Qed.

(** A sequence that does not start with an ASCII byte is wider than one
    byte. *)
Lemma runeLen_wide b r n :
  runeLen (b :: r) = S n -> isASCIIByte b = false ->
  exists y t n', r = y :: t /\ n = S n'.
Proof.
  unfold runeLen. intros H A. rewrite A in H.
  destruct r as [|b1 r1]; [discriminate|].
  destruct (twoOk b b1). { injection H as <-. eauto. }
  destruct r1 as [|b2 r2]; [discriminate|].
  destruct (threeOk b b1 b2). { injection H as <-. eauto. }
  destruct r2 as [|b3 r3]; [discriminate|].
  destruct (fourOk b b1 b2 b3); [|discriminate]. injection H as <-. eauto.
Qed.

(** Two bytes at the head of the escaped text that do not start an escape
    are the two bytes at the head of the text. *)
Lemma escapeInvalid_pair r c d rest :
  escapeInvalid 0 r = c :: d :: rest ->
  c <> xe2 -> isASCIIByte c = false ->
  exists r', r = c :: d :: r'.
Proof.
  destruct r as [|x t]; [discriminate|]. cbn [escapeInvalid].
  destruct (runeLen (x :: t)) as [|n] eqn:E.
  - unfold escapeByte, marker. cbn [app]. intros H N.
    injection H as <- _. now elim N.
  - intros H N A. injection H as -> H.
    destruct (runeLen_wide _ _ _ E A) as (y & t' & n' & -> & ->).
    cbn [escapeInvalid] in H. injection H as -> _. eauto.
Qed.

Lemma escape_lead c :
  (Byte.eqb c xc2 || Byte.eqb c xc3) = true ->
  c <> xe2 /\ isASCIIByte c = false /\ isLead c = false.
Proof. destruct c; try discriminate; repeat split; discriminate. Qed.

Lemma unescape_escape s :
  forall k, conts k s = true -> escFree s = true ->
            unescapeInvalid 0 (escapeInvalid k s) = s.
Proof.
  induction s as [|b r IH]; intros k Hc Hm.
  - destruct k; reflexivity.
  - assert (Hr := escFree_tail _ _ Hm).
    destruct k as [|k'].
    + cbn [escapeInvalid]. destruct (runeLen (b :: r)) as [|n] eqn:E.
      * rewrite (unescape_step b _ (runeLen_invalid _ _ E)).
        f_equal. now apply IH.
      * assert (N : unescapeAt (b :: escapeInvalid n r) = None).
        { destruct (unescapeAt (b :: escapeInvalid n r)) eqn:U; [|reflexivity].
          exfalso. apply unescapeAt_shape in U.
          destruct U as (c & d & rest & U & C).
          injection U as -> U.
          destruct (runeLen_e2 _ _ E) as (b1 & b2 & r2 & -> & ->).
          cbn [escapeInvalid] in U. injection U as -> -> U.
          apply andb_true_iff in C. destruct C as [C1 C2].
          destruct (escape_lead c C1) as (Ne & Na & _).
          destruct (escapeInvalid_pair _ _ _ _ U Ne Na) as (r' & ->).
          exact (escFree_head _ _ _ Hm C1 C2). }
        cbn [unescapeInvalid]. rewrite N. f_equal.
        apply IH; [|assumption]. exact (runeLen_conts _ _ _ E).
    + cbn [conts] in Hc. apply andb_true_iff in Hc. destruct Hc as [Cb Hc].
      cbn [escapeInvalid unescapeInvalid].
      rewrite (unescapeAt_not_e2 _ _ (cont_not_e2 _ Cb)).
      f_equal. now apply IH.
Qed.

(** A byte at the head of the text that is not the first byte of a
    substitute is a byte of the name. *)
Lemma render_plain l c rest :
  good l -> render l = c :: rest -> isLead c = false ->
  exists l', l = (false, c) :: l' /\ rest = render l' /\ good l'.
Proof.
  intros G E L. destruct l as [|[[] b] l']; [discriminate| |].
  - inversion_clear G as [|? ? G1 _].
    destruct (substitute_chunk b (G1 eq_refl))
      as (x & y & z & Hs & _ & Lx & _).
    cbn in E. rewrite Hs in E. injection E as -> _. congruence.
  - inversion_clear G as [|? ? _ G']. cbn in E. injection E as -> <-. eauto.
Qed.

Lemma cont_not_lead b : isCont b = true -> isLead b = false.
Proof. destruct b; try discriminate; reflexivity. Qed.

(** The text of a marked name has no escape when the name has none. *)
Lemma render_escFree l :
  good l -> escFree (erase l) = true -> escFree (render l) = true.
Proof.
  induction l as [|[[] b] l' IH]; intros G F; [reflexivity| |].
  - inversion_clear G as [|? ? G1 G'].
    destruct (substitute_chunk b (G1 eq_refl))
      as (x & y & z & Hs & Hu & L & Cy & Cz).
    cbn [render flat_map chunk fst snd]. rewrite Hs. cbn [app escFree].
    rewrite (escAt_not_e2 y _ (cont_not_e2 _ Cy)),
      (escAt_not_e2 z _ (cont_not_e2 _ Cz)).
    cbn [negb andb]. fold (render l').
    rewrite (IH G' (escFree_tail _ _ F)), andb_true_r.
    apply negb_true_iff.
    destruct (escAt (x :: y :: z :: render l')) eqn:M; [|reflexivity].
    unfold escAt in M.
    destruct (unescapeAt (x :: y :: z :: render l')) eqn:U; [|discriminate].
    apply unescapeAt_shape in U. destruct U as (c & d & rest & U & _).
    injection U as -> -> -> _. discriminate Hu.
  - assert (G0 := G). inversion_clear G as [|? ? _ G'].
    cbn [render flat_map chunk fst snd app escFree]. fold (render l').
    rewrite (IH G' (escFree_tail _ _ F)), andb_true_r.
    apply negb_true_iff.
    destruct (escAt (b :: render l')) eqn:M; [|reflexivity]. exfalso.
    unfold escAt in M.
    destruct (unescapeAt (b :: render l')) eqn:U; [|discriminate].
    apply unescapeAt_shape in U. destruct U as (c & d & rest & U & C).
    assert (E0 : render ((false, b) :: l')
                 = xe2 :: x80 :: x9b :: c :: d :: rest) by exact U.
    destruct (render_head _ _ _ _ _ G0 E0 eq_refl eq_refl eq_refl)
      as [(t' & l'' & E & _)|(l'' & E & R)]; [discriminate|].
    apply andb_true_iff in C. destruct C as [C1 C2].
    destruct (escape_lead c C1) as (_ & _ & Lc).
    assert (G2 : good l'').
    { rewrite E in G0. inversion_clear G0 as [|? ? _ Ga].
      inversion_clear Ga as [|? ? _ Gb]. now inversion_clear Gb. }
    destruct (render_plain l'' c (d :: rest) G2 (eq_sym R) Lc)
      as (l3 & -> & R3 & G3).
    destruct (render_plain l3 d rest G3 (eq_sym R3) (cont_not_lead _ C2))
      as (l4 & -> & _).
    rewrite E in F. cbn [erase map snd] in F.
    exact (escFree_head _ _ _ F C1 C2).
Qed.

(** *** Quoting *)

Lemma not_lead_e2 b : isLead b = false -> b <> xe2.
Proof. intros H ->. discriminate H. Qed.

Lemma subAt_not_lead m b r : isLead b = false -> subAt m (b :: r) = false.
Proof.
  intros L. destruct r as [|c [|d r']]; try reflexivity. cbn [subAt].
  destruct (unsubstitute b c d) as [t|] eqn:U; [|reflexivity].
  destruct (unsubstitute_shape _ _ _ _ U) as (L' & _). congruence.
Qed.

Lemma quoteCode_shape t :
  isASCIIByte t = true ->
  exists q1 q2, quoteCode t = [q1; q2] /\
    isLead q1 = false /\ isLead q2 = false /\
    (Byte.eqb q1 xc2 || Byte.eqb q1 xc3) = false.
Proof.
  destruct t; try discriminate; intros _; do 2 eexists;
    (split; [reflexivity|]); repeat split.
Qed.

(** What stands after the marker for a reserved sequence: two bytes, none
    the first byte of a substitute, that do not read as an escape. *)
Lemma quoteAt_code m s q :
  quoteAt m s = Some q ->
  exists q1 q2, q = [q1; q2] /\
    isLead q1 = false /\ isLead q2 = false /\
    (Byte.eqb q1 xc2 || Byte.eqb q1 xc3) = false.
Proof.
  destruct s as [|a [|b [|c r]]]; try discriminate. cbn [quoteAt].
  destruct (Byte.eqb a xe2 && Byte.eqb b x80 && Byte.eqb c x9b).
  - intros H. injection H as <-. exists xc6, x80. repeat split.
  - destruct (unsubstitute a b c) as [t|] eqn:U; [|discriminate].
    destruct (anyTrigger m t); [|discriminate].
    intros H. injection H as <-.
    destruct (unsubstitute_shape _ _ _ _ U) as (_ & _ & _ & A & _).
    exact (quoteCode_shape t A).
Qed.

Lemma unquote_code t X :
  isASCIIByte t = true ->
  unquoteReserved 0 (marker ++ quoteCode t ++ X)
  = substitute t ++ unquoteReserved 0 X.
Proof. destruct t; try discriminate; intros _; reflexivity. Qed.

Lemma unquote_step m a b c r q X :
  quoteAt m (a :: b :: c :: r) = Some q ->
  unquoteReserved 0 (marker ++ q ++ X) = a :: b :: c :: unquoteReserved 0 X.
Proof.
  cbn [quoteAt].
  destruct (Byte.eqb a xe2 && Byte.eqb b x80 && Byte.eqb c x9b) eqn:M.
  - intros H. injection H as <-.
    apply andb_true_iff in M. destruct M as [M Mc].
    apply andb_true_iff in M. destruct M as [Ma Mb].
    apply byte_eqb_eq in Ma, Mb, Mc. subst. reflexivity.
  - destruct (unsubstitute a b c) as [t|] eqn:U; [|discriminate].
    destruct (anyTrigger m t); [|discriminate].
    intros H. injection H as <-.
    destruct (unsubstitute_shape _ _ _ _ U) as (_ & _ & _ & A & Hs).
    now rewrite (unquote_code t X A), Hs.
Qed.

Lemma unquoteAt_shape s q :
  unquoteAt s = Some q -> exists c d r, s = xe2 :: x80 :: x9b :: c :: d :: r.
Proof.
  destruct s as [|a0 s]; [discriminate|].
  destruct a0; try (cbn; discriminate).
  destruct s as [|a1 s]; [discriminate|].
  destruct a1; try (cbn; discriminate).
  destruct s as [|a2 s]; [discriminate|].
  destruct a2; try (cbn; discriminate).
  destruct s as [|c [|d r]]; try discriminate.
  intros _. eauto.
Qed.

(** A byte at the head of the quoted text that is not the first byte of
    the marker is a byte of the name. *)
Lemma quote_plain m s b rest :
  quoteReserved m 0 s = b :: rest -> b <> xe2 ->
  exists r, s = b :: r /\ rest = quoteReserved m 0 r.
Proof.
  destruct s as [|x r]; [discriminate|]. cbn [quoteReserved].
  destruct (quoteAt m (x :: r)).
  - unfold marker. cbn [app]. intros H N. injection H as <- _. now elim N.
  - intros H _. injection H as -> <-. eauto.
Qed.

(** Three bytes at the head of the quoted text, where nothing was quoted,
    are three bytes of the name. *)
Lemma quote_window m s a b c rest :
  quoteAt m s = None -> quoteReserved m 0 s = a :: b :: c :: rest ->
  b <> xe2 -> c <> xe2 -> exists r, s = a :: b :: c :: r.
Proof.
  destruct s as [|x r]; [discriminate|]. intros Q. cbn [quoteReserved].
  rewrite Q. intros H Nb Nc. injection H as -> H.
  destruct (quote_plain _ _ _ _ H Nb) as (r1 & -> & H1).
  destruct (quote_plain _ _ _ _ (eq_sym H1) Nc) as (r2 & -> & _).
  eauto.
Qed.

(** The quoted text holds no substitute of a character that a rule
    targets. *)
Lemma quoted_subFree m s : forall k, subFree m (quoteReserved m k s) = true.
Proof.
  induction s as [|b r IH]; intros k; [destruct k; reflexivity|].
  destruct k as [|k']; cbn [quoteReserved]; [|apply IH].
  destruct (quoteAt m (b :: r)) as [q|] eqn:Q.
  - destruct (quoteAt_code _ _ _ Q) as (q1 & q2 & -> & L1 & L2 & _).
    unfold marker. cbn [app subFree]. rewrite IH, andb_true_r.
    rewrite (subAt_not_lead m q1 _ L1), (subAt_not_lead m q2 _ L2).
    reflexivity.
  - cbn [subFree]. rewrite IH, andb_true_r. apply negb_true_iff.
    destruct (subAt m (b :: quoteReserved m 0 r)) eqn:A; [exfalso|reflexivity].
    destruct (quoteReserved m 0 r) as [|y [|z rest]] eqn:E;
      try discriminate A.
    cbn [subAt] in A. destruct (unsubstitute b y z) as [t|] eqn:U;
      [|discriminate].
    destruct (unsubstitute_shape _ _ _ _ U) as (_ & Cy & Cz & _).
    assert (W : quoteReserved m 0 (b :: r) = b :: y :: z :: rest).
    { cbn [quoteReserved]. now rewrite Q, E. }
    destruct (quote_window _ _ _ _ _ _ Q W (cont_not_e2 _ Cy)
                (cont_not_e2 _ Cz)) as (r' & Es).
    rewrite Es in Q. cbn [quoteAt] in Q. rewrite U, A in Q.
    destruct (Byte.eqb b xe2 && Byte.eqb y x80 && Byte.eqb z x9b);
      discriminate.
Qed.

(** The quoted text holds no escape. *)
Lemma quoted_escFree m s : forall k, escFree (quoteReserved m k s) = true.
Proof.
  induction s as [|b r IH]; intros k; [destruct k; reflexivity|].
  destruct k as [|k']; cbn [quoteReserved]; [|apply IH].
  destruct (quoteAt m (b :: r)) as [q|] eqn:Q.
  - destruct (quoteAt_code _ _ _ Q) as (q1 & q2 & -> & L1 & L2 & N).
    unfold marker. cbn [app escFree]. rewrite IH, andb_true_r.
    rewrite (escAt_not_e2 q1 _ (not_lead_e2 _ L1)),
      (escAt_not_e2 q2 _ (not_lead_e2 _ L2)).
    unfold escAt. cbn [unescapeAt]. rewrite N. reflexivity.
  - cbn [escFree]. rewrite IH, andb_true_r. apply negb_true_iff.
    destruct (escAt (b :: quoteReserved m 0 r)) eqn:A; [exfalso|reflexivity].
    unfold escAt in A.
    destruct (unescapeAt (b :: quoteReserved m 0 r)) eqn:U; [|discriminate].
    apply unescapeAt_shape in U. destruct U as (c & d & rest & U & _).
    injection U as -> U.
    assert (W : quoteReserved m 0 (xe2 :: r)
                = xe2 :: x80 :: x9b :: c :: d :: rest).
    { cbn [quoteReserved]. now rewrite Q, U. }
    destruct (quote_window _ _ _ _ _ _ Q W) as (r' & Es);
      [discriminate|discriminate|].
    rewrite Es in Q. discriminate Q.
Qed.

(** Unquoting returns the name. *)
Lemma unquote_quote m s :
  forall k, unquoteReserved 0 (quoteReserved m k s) = skipn k s.
Proof.
  induction s as [|b r IH]; intros k; [destruct k; reflexivity|].
  destruct k as [|k']; cbn [quoteReserved skipn]; [|apply IH].
  destruct (quoteAt m (b :: r)) as [q|] eqn:Q.
  - destruct r as [|c [|d r']]; try discriminate Q.
    rewrite (unquote_step _ _ _ _ _ _ _ Q), IH. reflexivity.
  - assert (N : unquoteAt (b :: quoteReserved m 0 r) = None).
    { destruct (unquoteAt (b :: quoteReserved m 0 r)) eqn:U; [|reflexivity].
      exfalso. apply unquoteAt_shape in U. destruct U as (c & d & rest & U).
      injection U as -> U.
      assert (W : quoteReserved m 0 (xe2 :: r)
                  = xe2 :: x80 :: x9b :: c :: d :: rest).
      { cbn [quoteReserved]. now rewrite Q, U. }
      destruct (quote_window _ _ _ _ _ _ Q W) as (r' & Es);
        [discriminate|discriminate|].
      rewrite Es in Q. discriminate Q. }
    cbn [unquoteReserved]. rewrite N, IH. reflexivity.
Qed.

(** *** The marks that are left after the position rules are undone *)

Lemma allContent_mark m s : allContent m (mark m s).
Proof.
  apply Forall_forall. intros x Hx. apply in_map_iff in Hx.
  destruct Hx as (b & <- & _). cbn. trivial.
Qed.

Lemma allContent_positions m l :
  allContent m l -> allContent m (posClr m (posSet m l)).
Proof.
  intros A. unfold posClr, posSet. destruct l as [|[f b] l'].
  - constructor.
  - inversion_clear A as [|? ? A1 A']. cbn in A1.
    destruct (snoc_case _ l') as [->|(mid & [g e] & ->)].
    + cbn. constructor; [|constructor]. cbn.
      destruct f, (leftTrigger m b), (rightTrigger m b); cbn; auto;
        discriminate.
    + apply Forall_app in A'. destruct A' as [Am Ae].
      inversion_clear Ae as [|? ? Ae' _]. cbn in Ae'.
      cbn [onHead]. rewrite !app_comm_cons, !onLast_snoc. cbn [app onHead].
      constructor.
      * cbn. destruct f, (leftTrigger m b); cbn; auto; discriminate.
      * apply Forall_app. split; [assumption|].
        constructor; [|constructor]. cbn.
        destruct g, (rightTrigger m e); cbn; auto; discriminate.
Qed.

(** *** Segments *)

Lemma msegments_cons l : exists seg rest, msegments l = seg :: rest.
Proof.
  destruct l as [|x r]; cbn; [eauto|].
  destruct (isSep x); [eauto|]. destruct (msegments r); eauto.
Qed.

Lemma substitute_not_slash b x y z :
  substitute b = [x; y; z] -> isASCIIByte b = true ->
  isSlash x = false /\ isSlash y = false /\ isSlash z = false.
Proof.
  intros Hs Hb. destruct (substitute_chunk b Hb)
    as (x' & y' & z' & Hs' & _ & L & Cy & Cz).
  rewrite Hs in Hs'. injection Hs' as <- <- <-.
  repeat split.
  - destruct x; try discriminate L; reflexivity.
  - destruct y; try discriminate Cy; reflexivity.
  - destruct z; try discriminate Cz; reflexivity.
Qed.

Lemma segments_cons b r :
  isSlash b = false ->
  segments (b :: r) = match segments r with
                      | [] => [[b]]
                      | seg :: rest => (b :: seg) :: rest
                      end.
Proof. intros H. cbn [segments]. now rewrite H. Qed.

(** The segments of the text are the texts of the marked segments. *)
Lemma segments_render l :
  good l -> segments (render l) = map render (msegments l).
Proof.
  induction l as [|[[] b] l' IH]; intros G; [reflexivity| |];
    inversion_clear G as [|? ? G1 G']; specialize (IH G');
    destruct (msegments_cons l') as (seg & rest & E).
  - destruct (substitute_chunk b (G1 eq_refl)) as (x & y & z & Hs & _).
    destruct (substitute_not_slash b x y z Hs (G1 eq_refl)) as (Sx & Sy & Sz).
    replace (msegments ((true, b) :: l')) with (((true, b) :: seg) :: rest)
      by (cbn [msegments]; now rewrite E).
    cbn [render flat_map chunk fst snd map]. rewrite Hs. cbn [app].
    fold (render l') (render seg).
    rewrite (segments_cons x _ Sx), (segments_cons y _ Sy),
      (segments_cons z _ Sz), IH, E.
    reflexivity.
  - cbn [render flat_map chunk fst snd app]. fold (render l').
    cbn [segments msegments]. unfold isSep. cbn [fst snd negb andb].
    rewrite IH, E. destruct (isSlash b); reflexivity.
Qed.

Lemma joinSegments_render ls :
  joinSegments (map render ls) = render (mjoin ls).
Proof.
  induction ls as [|seg rest IH]; [reflexivity|].
  cbn [map joinSegments mjoin]. destruct rest as [|seg' rest']; [reflexivity|].
  rewrite render_app. cbn [map] in IH |- *. rewrite IH. reflexivity.
Qed.

Lemma isSep_inv f b : isSep (f, b) = true -> f = false /\ b = x2f.
Proof.
  unfold isSep. cbn. intros H. apply andb_true_iff in H.
  destruct H as [H1 H2]. apply negb_true_iff in H1.
  unfold isSlash in H2. apply byte_eqb_eq in H2. auto.
Qed.

Lemma mjoin_cons seg seg' rest :
  mjoin (seg :: seg' :: rest) = seg ++ (false, x2f) :: mjoin (seg' :: rest).
Proof. reflexivity. Qed.

Lemma mjoin_msegments l : mjoin (msegments l) = l.
Proof.
  induction l as [|[f b] r IH]; [reflexivity|].
  destruct (msegments_cons r) as (seg & rest & Er).
  cbn [msegments]. rewrite Er in *. destruct (isSep (f, b)) eqn:E.
  - apply isSep_inv in E. destruct E as [-> ->].
    now rewrite mjoin_cons, IH.
  - destruct rest as [|seg' rest'].
    + cbn in IH |- *. now rewrite IH.
    + rewrite mjoin_cons in IH |- *. cbn [app]. now rewrite IH.
Qed.

Lemma msegments_noSep l : noSep l -> msegments l = [l].
Proof.
  induction l as [|x r IH]; intros H; [reflexivity|].
  inversion_clear H as [|? ? Hx Hr]. cbn [msegments]. rewrite Hx.
  now rewrite (IH Hr).
Qed.

Lemma msegments_app_sep l1 l2 :
  noSep l1 -> msegments (l1 ++ (false, x2f) :: l2) = l1 :: msegments l2.
Proof.
  induction l1 as [|x r IH]; intros H; [reflexivity|].
  inversion_clear H as [|? ? Hx Hr]. cbn [app msegments]. rewrite Hx.
  now rewrite (IH Hr).
Qed.

Lemma msegments_mjoin ls :
  ls <> [] -> Forall noSep ls -> msegments (mjoin ls) = ls.
Proof.
  induction ls as [|seg rest IH]; intros N H; [now elim N|].
  inversion_clear H as [|? ? Hs Hr]. cbn [mjoin].
  destruct rest as [|seg' rest'].
  - now apply msegments_noSep.
  - rewrite (msegments_app_sep _ _ Hs). f_equal.
    apply IH; [discriminate|assumption].
Qed.

Lemma noSep_msegments l : Forall noSep (msegments l).
Proof.
  induction l as [|x r IH]; [repeat constructor|].
  cbn [msegments]. destruct (isSep x) eqn:E.
  - constructor; [constructor|assumption].
  - destruct (msegments r) as [|seg rest]; [repeat constructor; assumption|].
    inversion_clear IH as [|? ? Hs Hr].
    constructor; [constructor; assumption|assumption].
Qed.

(** A property of every byte of a marked name holds in its segments, and
    back. *)
Lemma Forall_msegments (Q : bool * byte -> Prop) l :
  Forall Q l -> Forall (Forall Q) (msegments l).
Proof.
  induction l as [|x r IH]; intros H; [repeat constructor|].
  inversion_clear H as [|? ? Hx Hr]. specialize (IH Hr).
  cbn [msegments]. destruct (isSep x).
  - constructor; [constructor|assumption].
  - destruct (msegments r) as [|seg rest]; [repeat constructor; assumption|].
    inversion_clear IH as [|? ? Hs Hrest].
    constructor; [constructor; assumption|assumption].
Qed.

Lemma Forall_mjoin (Q : bool * byte -> Prop) ls :
  Q (false, x2f) -> Forall (Forall Q) ls -> Forall Q (mjoin ls).
Proof.
  intros Hq. induction ls as [|seg rest IH]; intros H; [constructor|].
  inversion_clear H as [|? ? Hs Hr]. cbn [mjoin].
  destruct rest as [|seg' rest']; [assumption|].
  apply Forall_app. split; [assumption|]. constructor; [assumption|].
  now apply IH.
Qed.

Lemma erase_cons x l : erase (x :: l) = snd x :: erase l.
Proof. reflexivity. Qed.

Lemma erase_mjoin_map (g : Marked -> Marked) ls :
  (forall l, erase (g l) = erase l) ->
  erase (mjoin (map g ls)) = erase (mjoin ls).
Proof.
  intros Hg. induction ls as [|seg rest IH]; [reflexivity|].
  destruct rest as [|seg' rest']; [apply Hg|].
  cbn [map] in IH |- *.
  now rewrite !mjoin_cons, !erase_app, !erase_cons, IH, Hg.
Qed.

Lemma free_prefix m x y :
  subFree m (x ++ y) = true -> subFree m x = true.
Proof.
  induction x as [|a x' IH]; [reflexivity|].
  cbn [app subFree]. intros H. apply andb_true_iff in H.
  destruct H as [H1 H2]. apply andb_true_iff. split; [|now apply IH].
  destruct x' as [|b [|c x'']]; try reflexivity. exact H1.
Qed.

Lemma free_mjoin m ls :
  subFree m (erase (mjoin ls)) = true ->
  Forall (fun l => subFree m (erase l) = true) ls.
Proof.
  induction ls as [|seg rest IH]; intros H; [constructor|].
  cbn [mjoin] in H. destruct rest as [|seg' rest'].
  - repeat constructor. assumption.
  - rewrite erase_app in H. constructor.
    + exact (free_prefix _ _ _ H).
    + apply IH. apply free_app_r in H. exact (free_tail _ _ _ H).
Qed.

(** *** The position rules on marked names *)

Lemma keeps_setL m : keepsSegments (setL m).
Proof.
  intros [f b] H. destruct (isSep (setL m (f, b))) eqn:E; [|reflexivity].
  unfold setL in E. cbn [fst snd] in E. apply isSep_inv in E. destruct E as [E ->]. cbn in E.
  apply orb_false_iff in E. destruct E as [-> _]. discriminate H.
Qed.

Lemma keeps_setR m : keepsSegments (setR m).
Proof.
  intros [f b] H. destruct (isSep (setR m (f, b))) eqn:E; [|reflexivity].
  unfold setR in E. cbn [fst snd] in E. apply isSep_inv in E. destruct E as [E ->]. cbn in E.
  apply orb_false_iff in E. destruct E as [-> _]. discriminate H.
Qed.

Lemma noSep_onHead g l : keepsSegments g -> noSep l -> noSep (onHead g l).
Proof.
  intros K H. destruct l as [|x r]; [constructor|].
  inversion_clear H as [|? ? Hx Hr]. constructor; [now apply K|assumption].
Qed.

Lemma noSep_onLast g l : keepsSegments g -> noSep l -> noSep (onLast g l).
Proof.
  intros K H. destruct (snoc_case _ l) as [->|(l' & x & ->)]; [constructor|].
  rewrite onLast_snoc. apply Forall_app in H. destruct H as [H1 H2].
  apply Forall_app. split; [assumption|]. inversion_clear H2 as [|? ? Hx _].
  constructor; [now apply K|constructor].
Qed.

Lemma noSep_posSet m l : noSep l -> noSep (posSet m l).
Proof.
  intros H. apply noSep_onLast; [apply keeps_setR|].
  apply noSep_onHead; [apply keeps_setL|assumption].
Qed.

Lemma good_posSet m l : good l -> good (posSet m l).
Proof.
  intros G. apply good_onLast; [apply tame_setR|].
  apply good_onHead; [apply tame_setL|assumption].
Qed.

Lemma good_posClr m l : good l -> good (posClr m l).
Proof.
  intros G. apply good_onHead; [apply tame_clrL|].
  apply good_onLast; [apply tame_clrR|assumption].
Qed.

Lemma erase_posSet m l : erase (posSet m l) = erase l.
Proof.
  unfold posSet. rewrite erase_onLast by apply tame_setR.
  apply erase_onHead, tame_setL.
Qed.

Lemma erase_posClr m l : erase (posClr m l) = erase l.
Proof.
  unfold posClr. rewrite erase_onHead by apply tame_clrL.
  apply erase_onLast, tame_clrR.
Qed.

Lemma map_Forall_eq (A B : Type) (f g : A -> B) (P : A -> Prop) l :
  (forall x, P x -> f x = g x) -> Forall P l -> map f l = map g l.
Proof.
  intros H F. induction F as [|x r Hx _ IH]; [reflexivity|].
  cbn. now rewrite (H x Hx), IH.
Qed.

Lemma encodePosition_render m l :
  good l ->
  encodePosition m (render l) = render (mjoin (map (posSet m) (msegments l))).
Proof.
  intros G. unfold encodePosition, onSegments.
  rewrite (segments_render l G), map_map, <- joinSegments_render, map_map.
  f_equal. apply (map_Forall_eq _ _ _ _ good).
  - intros seg Gs. rewrite (encodeLeft_render m seg Gs).
    apply encodeRight_render. apply good_onHead; [apply tame_setL|assumption].
  - now apply Forall_msegments.
Qed.

Lemma decodePosition_render m l :
  good l -> subFree m (erase l) = true ->
  decodePosition m (render l) = render (mjoin (map (posClr m) (msegments l))).
Proof.
  intros G F. unfold decodePosition, onSegments.
  rewrite (segments_render l G), map_map, <- joinSegments_render, map_map.
  f_equal.
  apply (map_Forall_eq _ _ _ _
           (fun seg => good seg /\ subFree m (erase seg) = true)).
  - intros seg [Gs Fs]. rewrite (decodeRight_render m seg Gs Fs).
    apply decodeLeft_render.
    + apply good_onLast; [apply tame_clrR|assumption].
    + now rewrite erase_onLast by apply tame_clrR.
  - apply Forall_and; [now apply Forall_msegments|].
    apply free_mjoin. now rewrite mjoin_msegments.
Qed.

(** *** The round trip *)

(** The rules are undone on a text without substitutes of targeted
    characters and without escapes. *)
Lemma decodeRules_encodeRules m x :
  subFree m x = true -> escFree x = true ->
  decodeRules m (encodeRules m x) = x.
Proof.
  intros F X. unfold encodeRules, decodeRules. cbv zeta.
  rewrite encodeContent_render.
  pose proof (good_mark m x) as G0.
  rewrite (encodePosition_render m _ G0).
  set (segs := msegments (mark m x)).
  assert (Gs : Forall good segs) by now apply Forall_msegments.
  assert (As : Forall (allContent m) segs).
  { apply Forall_msegments. apply allContent_mark. }
  assert (Ns : Forall noSep segs) by apply noSep_msegments.
  assert (Es : erase (mjoin segs) = x).
  { unfold segs. now rewrite mjoin_msegments, erase_mark. }
  set (l1 := mjoin (map (posSet m) segs)).
  assert (G1 : good l1).
  { apply Forall_mjoin; [discriminate|].
    apply Forall_map. revert Gs. apply Forall_impl. apply good_posSet. }
  assert (E1 : erase l1 = x).
  { unfold l1. rewrite erase_mjoin_map by apply erase_posSet. exact Es. }
  assert (R : (if Has m EncodeInvalidUtf8
               then unescapeInvalid 0
                      (if Has m EncodeInvalidUtf8
                       then escapeInvalid 0 (render l1) else render l1)
               else (if Has m EncodeInvalidUtf8
                     then escapeInvalid 0 (render l1) else render l1))
              = render l1).
  { destruct (Has m EncodeInvalidUtf8) eqn:U; [|reflexivity].
    apply unescape_escape; [reflexivity|].
    apply render_escFree; [assumption|]. now rewrite E1. }
  rewrite R.
  rewrite (decodePosition_render m l1 G1) by now rewrite E1.
  assert (S1 : msegments l1 = map (posSet m) segs).
  { unfold l1. apply msegments_mjoin.
    - unfold segs. destruct (msegments_cons (mark m x)) as (? & ? & ->).
      discriminate.
    - apply Forall_map. revert Ns. apply Forall_impl. apply noSep_posSet. }
  rewrite S1, map_map.
  set (l2 := mjoin (map (fun seg => posClr m (posSet m seg)) segs)).
  assert (E2 : erase l2 = x).
  { unfold l2. rewrite erase_mjoin_map; [exact Es|].
    intros l. now rewrite erase_posClr, erase_posSet. }
  rewrite decodeContent_render.
  - exact E2.
  - apply Forall_mjoin; [discriminate|].
    apply Forall_map. revert Gs. apply Forall_impl.
    intros seg G. now apply good_posClr, good_posSet.
  - apply Forall_mjoin; [discriminate|].
    apply Forall_map. revert As. apply Forall_impl.
    apply allContent_positions.
  - now rewrite E2.
Qed.

(** Decoding undoes encoding, for any mask and any name. *)
Lemma Decode_Encode (m : MultiEncoder) (s : Name) : Decode m (Encode m s) = s.
Proof.
  unfold Encode, Decode.
  rewrite decodeRules_encodeRules.
  - exact (unquote_quote m s 0).
  - apply quoted_subFree.
  - apply quoted_escFree.
Qed.

(** A name of ASCII bytes holds nothing to quote. *)
Lemma quoteAt_ascii m b r : isASCIIByte b = true -> quoteAt m (b :: r) = None.
Proof.
  intros A. destruct (quoteAt m (b :: r)) as [q|] eqn:Q; [|reflexivity].
  destruct r as [|c [|d r']]; try discriminate Q. cbn [quoteAt] in Q.
  destruct (Byte.eqb b xe2) eqn:E.
  - apply byte_eqb_eq in E. subst b. discriminate A.
  - cbn [andb] in Q. destruct (unsubstitute b c d) as [t|] eqn:U;
      [|discriminate].
    destruct (unsubstitute_shape _ _ _ _ U) as (L & _).
    rewrite (lead_not_ascii _ L) in A. discriminate.
Qed.

Lemma quote_ascii m s :
  forallb isASCIIByte s = true -> quoteReserved m 0 s = s.
Proof.
  induction s as [|b r IH]; [reflexivity|].
  cbn [forallb]. intros H. apply andb_true_iff in H. destruct H as [Hb Hr].
  cbn [quoteReserved]. now rewrite (quoteAt_ascii m b r Hb), (IH Hr).
Qed.

End roundtrip_facts.

(* ================================================================== *)
(** ** Properties of the registry *)

Module registry_facts.

Import encoder strings encodings marked strings_facts roundtrip_facts.
Local Open Scope string_scope.
Local Open Scope list_scope.

Section Registry.

Variable Standard : MultiEncoder.
Variable GOOS : string.
Variable unicodeLower : string -> string.

(** [ByName] only looks at the lowered name. *)
Lemma ByName_lowered (n1 n2 : string) :
  ToLower unicodeLower n1 = ToLower unicodeLower n2 ->
  ByName Standard GOOS unicodeLower n1 = ByName Standard GOOS unicodeLower n2.
Proof. intros H. unfold ByName. now rewrite H. Qed.

Lemma labels_miss (x : string) :
  ~ In x caseLabels -> Forall (fun l => String.eqb x l = false) caseLabels.
Proof.
  intros H. apply Forall_forall. intros l Hl.
  apply String.eqb_neq. intros ->. now apply H.
Qed.

(** C2. Lookup is case-insensitive: [ByName] returns for a name what it
    returns for the lowered name, and the upper-case and lower-case
    spellings of dropbox both resolve to the Dropbox encoding.  For a name
    with a byte outside ASCII, lowering goes through Go's Unicode tables and
    is assumed to leave its own result as it is. *)
Theorem ByName_case_insensitive (n : string) :
  (isASCII n = false ->
   ToLower unicodeLower (unicodeLower n) = unicodeLower n) ->
  ByName Standard GOOS unicodeLower n
  = ByName Standard GOOS unicodeLower (ToLower unicodeLower n) /\
  ByName Standard GOOS unicodeLower "DROPBOX" = Some Dropbox /\
  ByName Standard GOOS unicodeLower "dropbox" = Some Dropbox /\
  ByName Standard GOOS unicodeLower "DROPBOX"
  = ByName Standard GOOS unicodeLower "dropbox".
Proof.
  intros stable. split; [|repeat split].
  apply ByName_lowered. symmetry. now apply ToLower_idem.
Qed.

(** C3. A name whose lowered form is none of the case labels gets the
    explicit not-found value; a name that matches one gets an encoding.
    [ByName] is a total function: there is no third outcome. *)
Theorem ByName_unknown (n : string) :
  (~ In (ToLower unicodeLower n) caseLabels ->
   ByName Standard GOOS unicodeLower n = None) /\
  (In (ToLower unicodeLower n) caseLabels ->
   exists P, ByName Standard GOOS unicodeLower n = Some P).
Proof.
  unfold ByName. cbv zeta.
  generalize (ToLower unicodeLower n) as x. intros x. split.
  - intros H. apply labels_miss in H. unfold caseLabels in H.
    repeat match goal with
           | H : Forall _ (_ :: _) |- _ => inversion_clear H
           end.
    repeat match goal with
           | H : String.eqb _ _ = false |- _ => rewrite H; clear H
           end.
    reflexivity.
  - intros H.
    repeat match goal with
           | |- context [String.eqb x ?l] =>
               destruct (String.eqb_spec x l) as [->|?];
               [ cbn; eexists; reflexivity | ]
           end.
    exfalso. simpl in H. intuition congruence.
Qed.

(** C4. [Local] is the Windows encoding exactly when the platform is
    windows and the Unix encoding on every other platform, and the name
    local resolves to it. *)
Theorem Local_by_platform :
  (Local GOOS = LocalWindows <-> GOOS = "windows") /\
  (Local GOOS = LocalUnix <-> GOOS <> "windows") /\
  ByName Standard GOOS unicodeLower "local" = Some (Local GOOS).
Proof.
  split; [|split; [|reflexivity]];
    unfold Local; destruct (String.eqb_spec GOOS "windows") as [E|E].
  - split; [intros _; exact E | reflexivity].
  - split; [intros H; discriminate H | intros H; now elim E].
  - split; [intros H; discriminate H | intros H; now elim H].
  - split; [intros _; exact E | reflexivity].
Qed.

(** C5. Every name that [Names] lists resolves through [ByName]. *)
Theorem Names_resolve :
  Forall (fun n => ByName Standard GOOS unicodeLower n <> None) Names.
Proof. repeat constructor; discriminate. Qed.

(** C10. [ByName] accepts more names than [Names] lists: every listed name
    is accepted, the aliases windows and unix are accepted too, with the
    encodings of local-windows and local-unix, and neither alias is
    listed. *)
Theorem aliases_not_listed :
  Forall (fun n => ByName Standard GOOS unicodeLower n <> None) Names /\
  ByName Standard GOOS unicodeLower "windows" = Some LocalWindows /\
  ByName Standard GOOS unicodeLower "windows"
  = ByName Standard GOOS unicodeLower "local-windows" /\
  ByName Standard GOOS unicodeLower "unix" = Some LocalUnix /\
  ByName Standard GOOS unicodeLower "unix"
  = ByName Standard GOOS unicodeLower "local-unix" /\
  ~ In "windows" Names /\ ~ In "unix" Names.
Proof.
  split.
  - repeat constructor; discriminate.
  - repeat split; try reflexivity;
      (intros H; simpl in H; intuition discriminate).
Qed.

(** The heap never loses a slice. *)
Lemma setNth_length (A : Type) (i : nat) (v : A) (l : list A) :
  List.length (setNth i v l) = List.length l.
Proof.
  revert i. induction l as [|x r IH]; intros [|i]; cbn; auto.
Qed.

Lemma exec_length (op : Op) (h : Heap) :
  (List.length h <= List.length (snd (exec Standard GOOS unicodeLower op h)))%nat.
Proof.
  destruct op; cbn; try apply Nat.le_refl.
  - rewrite length_app. cbn. lia.
  - unfold store. destruct (nth_error h p); [|apply Nat.le_refl].
    rewrite setNth_length. apply Nat.le_refl.
Qed.

Lemma run_length (ops : list Op) (h : Heap) :
  (List.length h <= List.length (run Standard GOOS unicodeLower ops h))%nat.
Proof.
  revert h. induction ops as [|op rest IH]; intros h; [apply Nat.le_refl|].
  cbn [run]. eapply Nat.le_trans; [apply exec_length|apply IH].
Qed.

(** What [Names] does to a heap. *)
Lemma Names_allocates (h : Heap) :
  exec Standard GOOS unicodeLower CallNames h
  = (RetSlice (List.length h), h ++ [Names]) /\
  load (h ++ [Names]) (List.length h) = Some Names /\
  (forall q, q <> List.length h -> load (h ++ [Names]) q = load h q).
Proof.
  split; [reflexivity|]. unfold load. split.
  - rewrite nth_error_app2 by apply Nat.le_refl. now rewrite Nat.sub_diag.
  - intros q Hq. destruct (Nat.lt_ge_cases q (List.length h)) as [L|L].
    + now rewrite nth_error_app1.
    + rewrite (proj2 (nth_error_None h q)) by lia.
      apply nth_error_None. rewrite length_app. cbn. lia.
Qed.

(** C9. The registry keeps no state.  At any point of any history of
    registry calls and of writes by callers into slices they hold,
    [ByName], [Local], [Encode] and [Decode] return the value of the pure
    function and leave the heap as it is, so a second call of [ByName] with
    the same name, whatever happened in between, returns the same result.
    [Names] returns a fresh slice that holds the listed names in order and
    leaves every other slice as it was; a second call, whatever callers
    wrote in between, returns another slice with the same names. *)
Theorem registry_stateless (before between : list Op) (h0 : Heap) :
  let h := run Standard GOOS unicodeLower before h0 in
  let call := exec Standard GOOS unicodeLower in
  let later := run Standard GOOS unicodeLower between in
  (forall n, call (CallByName n) h
             = (RetEncoder (ByName Standard GOOS unicodeLower n), h)) /\
  (forall n, fst (call (CallByName n) (later h))
             = fst (call (CallByName n) h)) /\
  call CallLocal h = (RetLocal (Local GOOS), h) /\
  (forall m s, call (CallEncode m s) h = (RetName (Encode m s), h)) /\
  (forall m s, call (CallDecode m s) h = (RetName (Decode m s), h)) /\
  (exists p1 h1 p2 h2,
      call CallNames h = (RetSlice p1, h1) /\
      call CallNames (later h1) = (RetSlice p2, h2) /\
      load h1 p1 = Some Names /\
      load h2 p2 = Some Names /\
      p1 <> p2 /\
      (forall q, q <> p1 -> load h1 q = load h q) /\
      (forall q, q <> p2 -> load h2 q = load (later h1) q)).
Proof.
  cbv zeta. set (h := run _ _ _ before h0).
  do 5 (split; [reflexivity|]).
  destruct (Names_allocates h) as (C1 & L1 & K1).
  set (h1 := h ++ [Names]) in *.
  set (h1' := run Standard GOOS unicodeLower between h1).
  destruct (Names_allocates h1') as (C2 & L2 & K2).
  exists (List.length h), h1, (List.length h1'), (h1' ++ [Names]).
  repeat split; try assumption.
  pose proof (run_length between h1) as Hlen. fold h1' in Hlen.
  unfold h1 in Hlen. rewrite length_app in Hlen. cbn in Hlen. lia.
Qed.

(** C1. For every encoding that [ByName] returns and every name, valid
    UTF-8 or not, empty or not, with empty segments or not, decoding the
    encoded name returns the name. *)
Theorem registry_round_trip (n : string) (P : MultiEncoder) (s : Name) :
  ByName Standard GOOS unicodeLower n = Some P ->
  Decode P (Encode P s) = s.
Proof.
  intros _. unfold Encode, Decode.
  rewrite decodeRules_encodeRules.
  - exact (unquote_quote P s 0).
  - apply quoted_subFree.
  - apply quoted_escFree.
Qed.

End Registry.

(** C2 at the name DROPBOX, which is ASCII, and at a name with the two
    bytes of a Latin letter outside ASCII, with the identity for the Unicode
    path. *)
Lemma ByName_case_insensitive_witness :
  ByName 0 "linux" (fun s => s) "DROPBOX"
  = ByName 0 "linux" (fun s => s) (ToLower (fun s => s) "DROPBOX") /\
  ByName 0 "linux" (fun s => s) (String "195" (String "137" "COLE"))
  = ByName 0 "linux" (fun s => s)
      (ToLower (fun s => s) (String "195" (String "137" "COLE"))).
Proof.
  split.
  - apply (ByName_case_insensitive 0 "linux" (fun s => s) "DROPBOX").
    intros H. discriminate H.
  - apply (ByName_case_insensitive 0 "linux" (fun s => s)
             (String "195" (String "137" "COLE"))).
    intros _. reflexivity.
Defined.

(** C3 at the name S3, a backend without an entry. *)
Lemma ByName_unknown_witness :
  ~ In (ToLower (fun s => s) "S3") caseLabels /\
  ByName 0 "linux" (fun s => s) "S3" = None.
Proof.
  assert (H : ~ In (ToLower (fun s => s) "S3") caseLabels).
  { cbv. intuition discriminate. }
  split; [exact H|].
  exact (proj1 (ByName_unknown 0 "linux" (fun s => s) "S3") H).
Defined.

(** C1 at the Dropbox encoding, on a name with an empty segment, a DEL, a
    fullwidth solidus (U+FF0F), the marker (U+201B), a byte that is not
    UTF-8 and a trailing space. *)
Lemma registry_round_trip_witness :
  ByName 0 "linux" (fun s => s) "dropbox" = Some Dropbox /\
  Decode Dropbox
    (Encode Dropbox
       (bytes "a//b" ++ [x7f; xef; xbc; x8f; xe2; x80; x9b; xff] ++ bytes "c "))
  = bytes "a//b" ++ [x7f; xef; xbc; x8f; xe2; x80; x9b; xff] ++ bytes "c ".
Proof.
  split; [reflexivity|].
  apply (registry_round_trip 0 "linux" (fun s => s) "dropbox"); reflexivity.
Defined.

End registry_facts.

(* ================================================================== *)
(** ** The encodings on concrete names *)

Module scenario_facts.

Import encoder encodings marked roundtrip_facts.
Local Open Scope string_scope.
Local Open Scope list_scope.

Lemma Has_lor (a b f : N) : Has (N.lor a b) f = Has a f || Has b f.
Proof.
  unfold Has. rewrite N.land_lor_distr_l.
  destruct (N.eqb_spec (N.land a f) 0) as [Ea|Ea];
    destruct (N.eqb_spec (N.land b f) 0) as [Eb|Eb];
    destruct (N.eqb_spec (N.lor (N.land a f) (N.land b f)) 0) as [E|E];
    try reflexivity; exfalso.
  - apply E. rewrite Ea, Eb. reflexivity.
  - apply N.lor_eq_0_iff in E. tauto.
  - apply N.lor_eq_0_iff in E. tauto.
  - apply N.lor_eq_0_iff in E. tauto.
Qed.

(** C6. The Unix local encoding is [Base]; of all flags it has exactly
    [EncodeZero] and [EncodeSlash]; it encodes a, slash, b, NUL, c by
    substituting the slash (U+FF0F) and the NUL (U+2400) and nothing else,
    and decoding returns the name. *)
Theorem LocalUnix_slash_and_zero :
  LocalUnix = Base /\
  filter (Has LocalUnix) allFlags = [EncodeZero; EncodeSlash] /\
  Encode LocalUnix (bytes "a/b" ++ [x00] ++ bytes "c")
  = bytes "a" ++ [xef; xbc; x8f] ++ bytes "b" ++ [xe2; x90; x80] ++ bytes "c" /\
  Decode LocalUnix
    (bytes "a" ++ [xef; xbc; x8f] ++ bytes "b" ++ [xe2; x90; x80] ++ bytes "c")
  = bytes "a/b" ++ [x00] ++ bytes "c".
Proof. repeat split. Qed.

(** *** Names of plain ASCII under the Windows local encoding *)

Lemma encodeContent_plain m s :
  forallb (plainFor m) s = true -> encodeContent m s = s.
Proof.
  induction s as [|b r IH]; [reflexivity|].
  cbn [forallb]. intros H. apply andb_true_iff in H. destruct H as [Hb Hr].
  unfold plainFor in Hb. apply andb_true_iff in Hb. destruct Hb as [_ Hb].
  apply negb_true_iff in Hb. unfold encodeContent in *.
  cbn [flat_map]. rewrite Hb, (IH Hr). reflexivity.
Qed.

Lemma escapeInvalid_ascii s r :
  forallb isASCIIByte s = true ->
  escapeInvalid 0 (s ++ r) = s ++ escapeInvalid 0 r.
Proof.
  induction s as [|b s' IH]; [reflexivity|].
  cbn [forallb]. intros H. apply andb_true_iff in H. destruct H as [Hb Hs].
  cbn [app escapeInvalid runeLen]. rewrite Hb. now rewrite (IH Hs).
Qed.

Lemma plain_ascii m s :
  forallb (plainFor m) s = true -> forallb isASCIIByte s = true.
Proof.
  intros H. apply forallb_forall. intros b Hb.
  rewrite forallb_forall in H. specialize (H b Hb).
  unfold plainFor in H. apply andb_true_iff in H. tauto.
Qed.

Lemma LocalWindows_no_left b : leftTrigger LocalWindows b = false.
Proof. destruct b; reflexivity. Qed.

Lemma LocalWindows_right b :
  rightTrigger LocalWindows b = Byte.eqb b x20 || Byte.eqb b x2e.
Proof. destruct b; reflexivity. Qed.

Lemma segments_single s :
  forallb (fun b => negb (isSlash b)) s = true -> segments s = [s].
Proof.
  induction s as [|b r IH]; [reflexivity|].
  cbn [forallb]. intros H. apply andb_true_iff in H. destruct H as [Hb Hr].
  apply negb_true_iff in Hb. cbn [segments]. now rewrite Hb, (IH Hr).
Qed.

Lemma plain_no_slash s :
  forallb (plainFor LocalWindows) s = true ->
  forallb (fun b => negb (isSlash b)) s = true.
Proof.
  intros H. apply forallb_forall. intros b Hb.
  rewrite forallb_forall in H. specialize (H b Hb).
  destruct b; try discriminate H; reflexivity.
Qed.

Lemma encodeLeft_LocalWindows s : encodeLeft LocalWindows s = s.
Proof.
  destruct s as [|b r]; [reflexivity|].
  cbn. now rewrite LocalWindows_no_left.
Qed.

(** C7. The Windows local encoding has [EncodeRightSpace] and
    [EncodeRightPeriod].  It substitutes the trailing space of file.txt by
    the symbol for space (U+2420) and the trailing period of con by the
    fullwidth full stop (U+FF0E), and decoding returns both names.  In a
    name of ASCII bytes that no content rule targets, such as letters,
    digits, spaces and periods, every byte before the last is encoded as
    itself; only a space or period in the last place is substituted. *)
Theorem LocalWindows_trailing :
  Has LocalWindows EncodeRightSpace = true /\
  Has LocalWindows EncodeRightPeriod = true /\
  Encode LocalWindows (bytes "file.txt ")
  = bytes "file.txt" ++ [xe2; x90; xa0] /\
  Decode LocalWindows (bytes "file.txt" ++ [xe2; x90; xa0])
  = bytes "file.txt " /\
  Encode LocalWindows (bytes "con.") = bytes "con" ++ [xef; xbc; x8e] /\
  Decode LocalWindows (bytes "con" ++ [xef; xbc; x8e]) = bytes "con." /\
  plainFor LocalWindows x20 = true /\
  plainFor LocalWindows x2e = true /\
  (forall s e,
      forallb (plainFor LocalWindows) (s ++ [e]) = true ->
      Encode LocalWindows (s ++ [e])
      = s ++ (if Byte.eqb e x20 || Byte.eqb e x2e
              then substitute e else [e])).
Proof.
  do 8 (split; [reflexivity|]).
  intros s e H. unfold Encode.
  rewrite (quote_ascii _ _ (plain_ascii _ _ H)).
  unfold encodeRules. cbv zeta.
  rewrite (encodeContent_plain _ _ H).
  unfold encodePosition, onSegments.
  rewrite (segments_single _ (plain_no_slash _ H)). cbn [map joinSegments].
  rewrite encodeLeft_LocalWindows. unfold encodeRight. rewrite unsnoc_app, LocalWindows_right.
  replace (Has LocalWindows EncodeInvalidUtf8) with true by reflexivity.
  apply plain_ascii in H. rewrite forallb_app in H.
  apply andb_true_iff in H. destruct H as [Hs He].
  cbn in He. rewrite andb_true_r in He.
  destruct (Byte.eqb e x20 || Byte.eqb e x2e) eqn:T;
    rewrite (escapeInvalid_ascii _ _ Hs); f_equal.
  - destruct e; try discriminate T; reflexivity.
  - destruct e; try discriminate He; reflexivity.
Qed.

(** C7 at a name with a leading space, inner spaces and periods and a
    trailing period. *)
Lemma LocalWindows_trailing_witness :
  forallb (plainFor LocalWindows) (bytes " a. b .c" ++ [x2e]) = true /\
  Encode LocalWindows (bytes " a. b .c" ++ [x2e])
  = bytes " a. b .c" ++ [xef; xbc; x8e].
Proof.
  split; [reflexivity|].
  exact (proj2 (proj2 (proj2 (proj2 (proj2 (proj2 (proj2 (proj2
           LocalWindows_trailing)))))))
           (bytes " a. b .c") x2e eq_refl).
Defined.

(** Any encoding with [EncodeLeftTilde] substitutes the leading tilde of
    the name and decodes it back. *)
Lemma leading_tilde (m : MultiEncoder) :
  Has m EncodeLeftTilde = true ->
  Encode m (bytes "~folder") = [xef; xbd; x9e] ++ bytes "folder" /\
  Decode m ([xef; xbd; x9e] ++ bytes "folder") = bytes "~folder".
Proof.
  intros H.
  assert (L : leftTrigger m x7e = true).
  { unfold leftTrigger. rewrite H. reflexivity. }
  split.
  - unfold Encode.
    replace (quoteReserved m 0 (bytes "~folder")) with (bytes "~folder")
      by reflexivity.
    unfold encodeRules. cbv zeta.
    replace (encodeContent m (bytes "~folder")) with (x7e :: bytes "folder")
      by reflexivity.
    replace (encodePosition m (x7e :: bytes "folder"))
      with (encodeRight m (encodeLeft m (x7e :: bytes "folder")))
      by reflexivity.
    cbn [encodeLeft]. rewrite L.
    replace (encodeRight m (substitute x7e ++ bytes "folder"))
      with ([xef; xbd; x9e] ++ bytes "folder") by reflexivity.
    destruct (Has m EncodeInvalidUtf8); reflexivity.
  - unfold Decode, decodeRules. cbv zeta.
    replace (if Has m EncodeInvalidUtf8
             then unescapeInvalid 0 ([xef; xbd; x9e] ++ bytes "folder")
             else [xef; xbd; x9e] ++ bytes "folder")
      with ([xef; xbd; x9e] ++ bytes "folder")
      by (destruct (Has m EncodeInvalidUtf8); reflexivity).
    replace (decodePosition m ([xef; xbd; x9e] ++ bytes "folder"))
      with (decodeLeft m (decodeRight m ([xef; xbd; x9e] ++ bytes "folder")))
      by reflexivity.
    replace (decodeRight m ([xef; xbd; x9e] ++ bytes "folder"))
      with (xef :: xbd :: x9e :: bytes "folder") by reflexivity.
    cbn [decodeLeft].

    replace (unsubstitute xef xbd x9e) with (Some x7e) by reflexivity.
    rewrite L. reflexivity.
Qed.

(** C8. The OneDrive encoding has [EncodeLeftTilde]; it substitutes the
    leading tilde of the name by the fullwidth tilde (U+FF5E) and decoding
    returns the name, whatever [encoder.Standard] contributes. *)
Theorem OneDrive_leading_tilde (Standard : MultiEncoder) :
  Has (OneDrive Standard) EncodeLeftTilde = true /\
  Encode (OneDrive Standard) (bytes "~folder")
  = [xef; xbd; x9e] ++ bytes "folder" /\
  Decode (OneDrive Standard) ([xef; xbd; x9e] ++ bytes "folder")
  = bytes "~folder".
Proof.
  assert (H : Has (OneDrive Standard) EncodeLeftTilde = true).
  { unfold OneDrive. rewrite !Has_lor.
    replace (Has EncodeLeftTilde EncodeLeftTilde) with true by reflexivity.
    rewrite !orb_true_r. reflexivity. }
  split; [exact H|]. now apply leading_tilde.
Qed.

End scenario_facts.

(* ================================================================== *)
(** ** More on the registry *)

Module registry_extra.

Import encoder strings encodings conformance strings_facts registry_facts
  scenario_facts.
Local Open Scope string_scope.
Local Open Scope list_scope.

Lemma extends_refl P : extends P P.
Proof. apply N.land_diag. Qed.

Lemma extends_lor_l P Q X : extends P Q -> extends (N.lor P X) Q.
Proof.
  unfold extends. intros H. rewrite N.land_lor_distr_l, H.
  apply N.bits_inj. intros i. rewrite N.lor_spec, N.land_spec.
  destruct (N.testbit Q i), (N.testbit X i); reflexivity.
Qed.

Lemma extends_Has P Q f : extends P Q -> Has Q f = true -> Has P f = true.
Proof.
  unfold extends, Has. intros E H. apply negb_true_iff in H.
  apply negb_true_iff. apply N.eqb_neq in H. apply N.eqb_neq. intros Z.
  apply H. rewrite <- E, <- N.land_assoc, (N.land_comm Q f), N.land_assoc, Z.
  apply N.land_0_l.
Qed.

Section Table.
Variable Standard : MultiEncoder.
Variable GOOS : string.
Variable unicodeLower : string -> string.

Lemma ByName_miss (n : string) :
  ~ In (ToLower unicodeLower n) caseLabels ->
  ByName Standard GOOS unicodeLower n = None.
Proof.
  unfold ByName. cbv zeta.
  generalize (ToLower unicodeLower n) as x. intros x H.
  apply labels_miss in H. unfold caseLabels in H.
  repeat match goal with
         | H : Forall _ (_ :: _) |- _ => inversion_clear H
         end.
  repeat match goal with
         | H : String.eqb _ _ = false |- _ => rewrite H; clear H
         end.
  reflexivity.
Qed.

Lemma ByName_label (n : string) :
  ByName Standard GOOS unicodeLower n <> None ->
  In (ToLower unicodeLower n) caseLabels.
Proof.
  intros H. destruct (in_dec string_dec (ToLower unicodeLower n) caseLabels)
    as [I|I]; [assumption|]. elim H. now apply ByName_miss.
Qed.

(** The [switch] of [ByName], read as a table. *)
Lemma ByName_cases (n : string) (P : MultiEncoder) :
  ByName Standard GOOS unicodeLower n = Some P ->
  In (ToLower unicodeLower n, P)
     [ ("base", Base); ("display", Display Standard);
       ("amazonclouddrive", AmazonCloudDrive); ("b2", B2 Standard);
       ("box", Box Standard); ("drive", Drive); ("dropbox", Dropbox);
       ("googlecloudstorage", GoogleCloudStorage);
       ("jottacloud", JottaCloud Standard); ("koofr", Koofr Standard);
       ("local", Local GOOS); ("local-windows", LocalWindows);
       ("windows", LocalWindows); ("local-unix", LocalUnix);
       ("unix", LocalUnix); ("mega", Mega); ("onedrive", OneDrive Standard);
       ("opendrive", OpenDrive); ("pcloud", Pcloud) ].
Proof.
  unfold ByName. cbv zeta.
  generalize (ToLower unicodeLower n) as x. intros x.
  repeat match goal with
         | |- context [String.eqb x ?l] =>
             destruct (String.eqb_spec x l) as [->|?];
             [ cbn; intros H; injection H as <-; cbn; tauto | ]
         end.
  discriminate.
Qed.

End Table.

Lemma Has_self_lor X f : Has f f = true -> Has (N.lor X f) f = true.
Proof. intros H. rewrite Has_lor, H. apply orb_true_r. Qed.

Lemma Has_lor_l X Y f : Has X f = true -> Has (N.lor X Y) f = true.
Proof. intros H. now rewrite Has_lor, H. Qed.

(** Goes through the table; [N] excludes the names whose encoding need not
    escape invalid UTF-8. *)
Ltac utf8_flag H N :=
  apply ByName_cases in H; cbn [In] in H;
  repeat (destruct H as [H|H];
          [ let Hn := fresh "Hn" in
            injection H as Hn <-;
            try (elim N; rewrite <- Hn; cbn; tauto);
            try reflexivity;
            try (apply Has_self_lor; reflexivity)
          | ]);
  contradiction.

Section Flags.
Variable Standard : MultiEncoder.
Variable GOOS : string.
Variable unicodeLower : string -> string.

(** X1. Every encoding that [ByName] returns, except for the names base,
    display, local, local-unix and unix, escapes invalid UTF-8. *)
Theorem registry_escapes_invalid_utf8 (n : string) (P : MultiEncoder) :
  ByName Standard GOOS unicodeLower n = Some P ->
  ~ In (ToLower unicodeLower n)
       ["base"; "display"; "local"; "local-unix"; "unix"] ->
  Has P EncodeInvalidUtf8 = true.
Proof. intros H N. utf8_flag H N. Qed.

(** X2. Every encoding that [ByName] returns is [Drive], or activates
    every flag of [Base], or activates every flag of [Display]. *)
Theorem registry_extends_base_or_display (n : string) (P : MultiEncoder) :
  ByName Standard GOOS unicodeLower n = Some P ->
  P = Drive \/ extends P Base \/ extends P (Display Standard).
Proof.
  intros H. apply ByName_cases in H. cbn [In] in H.
  repeat (destruct H as [H|H];
          [ injection H as _ <-;
            first [ left; reflexivity
                  | right; left;
                    unfold Local, LocalUnix, LocalWindows, AmazonCloudDrive,
                      Dropbox, GoogleCloudStorage, Mega, OpenDrive, Pcloud;
                    try destruct (String.eqb GOOS "windows");
                    solve [repeat first [apply extends_refl | apply extends_lor_l]]
                  | right; right;
                    unfold B2, Box, JottaCloud, Koofr, OneDrive;
                    solve [repeat first [apply extends_refl | apply extends_lor_l]] ]
          | ]).
  contradiction.
Qed.

(** X3. The Windows local encoding activates every flag of the Unix local
    encoding, so [Local] activates them on every platform. *)
Theorem Local_extends_LocalUnix (f : N) :
  extends LocalWindows LocalUnix /\
  extends (Local GOOS) LocalUnix /\
  (Has LocalUnix f = true -> Has (Local GOOS) f = true).
Proof.
  assert (W : extends LocalWindows LocalUnix).
  { unfold LocalWindows, LocalUnix.
    repeat first [apply extends_refl | apply extends_lor_l]. }
  assert (L : extends (Local GOOS) LocalUnix).
  { unfold Local. destruct (String.eqb GOOS "windows");
      [exact W|apply extends_refl]. }
  repeat split; try assumption. now apply extends_Has.
Qed.

End Flags.

(** X4. The platform shows in the result of [ByName] for the name local
    and for no other name: off that name two platforms give the same
    result, on it windows and any other platform give different ones. *)
Theorem ByName_platform (Standard : MultiEncoder) (g1 g2 : string)
    (unicodeLower : string -> string) (n : string) :
  (ToLower unicodeLower n <> "local" ->
   ByName Standard g1 unicodeLower n = ByName Standard g2 unicodeLower n) /\
  (ToLower unicodeLower n = "local" ->
   g1 = "windows" -> g2 <> "windows" ->
   ByName Standard g1 unicodeLower n <> ByName Standard g2 unicodeLower n).
Proof.
  unfold ByName. cbv zeta.
  generalize (ToLower unicodeLower n) as x. intros x. split.
  - intros H. apply String.eqb_neq in H. rewrite H. reflexivity.
  - intros -> -> H. cbn. unfold Local. apply String.eqb_neq in H.
    rewrite H. cbn. discriminate.
Qed.

(** X5. The value of [encoder.Standard] shows in the result of [ByName]
    only for the names display, b2, box, jottacloud, koofr and onedrive. *)
Theorem ByName_standard (S1 S2 : MultiEncoder) (GOOS : string)
    (unicodeLower : string -> string) (n : string) :
  ~ In (ToLower unicodeLower n)
       ["display"; "b2"; "box"; "jottacloud"; "koofr"; "onedrive"] ->
  ByName S1 GOOS unicodeLower n = ByName S2 GOOS unicodeLower n.
Proof.
  unfold ByName. cbv zeta.
  generalize (ToLower unicodeLower n) as x. intros x H.
  assert (F : Forall (fun l => String.eqb x l = false)
                ["display"; "b2"; "box"; "jottacloud"; "koofr"; "onedrive"]).
  { apply Forall_forall. intros l Hl. apply String.eqb_neq.
    intros ->. now apply H. }
  repeat match goal with
         | H : Forall _ (_ :: _) |- _ => inversion_clear H
         end.
  repeat match goal with
         | H : String.eqb _ _ = false |- _ => rewrite H; clear H
         end.
  reflexivity.
Qed.

Ltac has_flag :=
  solve [ repeat first [ apply Has_self_lor; reflexivity | apply Has_lor_l ] ].

(** X8. Every flag that the Windows local encoding adds to [Base], the
    flag for control characters apart, is active in the OneDrive encoding,
    whatever [encoder.Standard] is. *)
Theorem OneDrive_has_windows_rules (Standard : MultiEncoder) (f : N) :
  In f allFlags ->
  Has LocalWindows f = true -> Has Base f = false -> f <> EncodeCtl ->
  Has (OneDrive Standard) f = true.
Proof.
  intros I W B C. unfold allFlags in I. cbn [In] in I.
  repeat (destruct I as [<-|I];
          [ first [ discriminate W | discriminate B | now elim C
                  | unfold OneDrive; has_flag ] | ]).
  contradiction.
Qed.

Lemma mapBytes_length f s : String.length (mapBytes f s) = String.length s.
Proof. induction s as [|c r IH]; cbn; [reflexivity|now rewrite IH]. Qed.

Lemma isLabelByte_lower c : isLabelByte (lowerByte c) = true -> isLabelByte c = true.
Proof. destruct c as [[] [] [] [] [] [] [] []]; intros H; exact H || reflexivity. Qed.

Lemma labelBytes_lower s :
  forallb isLabelByte (list_ascii_of_string (mapBytes lowerByte s)) = true ->
  forallb isLabelByte (list_ascii_of_string s) = true.
Proof.
  induction s as [|c r IH]; cbn; [trivial|].
  intros H. apply andb_true_iff in H. destruct H as [Hc Hr].
  now rewrite (isLabelByte_lower c Hc), (IH Hr).
Qed.

Section Labels.
Variable Standard : MultiEncoder.
Variable GOOS : string.
Variable unicodeLower : string -> string.

(** X6. [ByName] does not trim or otherwise clean a name: an ASCII name
    that it resolves has between 2 and 18 bytes, each a letter, a digit or
    the hyphen.  The empty name and a name with a space are not found. *)
Theorem ByName_ascii_shape (n : string) :
  isASCII n = true ->
  ByName Standard GOOS unicodeLower n <> None ->
  (2 <= String.length n <= 18)%nat /\
  forallb isLabelByte (list_ascii_of_string n) = true.
Proof.
  intros A H. apply ByName_label in H. unfold ToLower in H. rewrite A in H.
  assert (F : Forall (fun l => (2 <= String.length l <= 18)%nat /\
                               forallb isLabelByte (list_ascii_of_string l) = true)
                caseLabels).
  { repeat constructor. }
  rewrite Forall_forall in F. destruct (F _ H) as [L B].
  rewrite mapBytes_length in L. split; [exact L|].
  now apply labelBytes_lower.
Qed.

(** X7. [Names] lists no name twice, and it lists every name that [ByName]
    accepts, up to case, except the aliases windows and unix. *)
Theorem Names_complete (n : string) :
  NoDup Names /\
  (ByName Standard GOOS unicodeLower n <> None ->
   In (ToLower unicodeLower n) Names \/
   ToLower unicodeLower n = "windows" \/ ToLower unicodeLower n = "unix").
Proof.
  split.
  - unfold Names.
    repeat (constructor; [cbn; intuition discriminate|]). constructor.
  - intros H. apply ByName_label in H.
    generalize dependent (ToLower unicodeLower n). intros x H.
    unfold caseLabels in H. cbn [In] in H.
    repeat (destruct H as [<-|H]; [cbn; tauto|]). contradiction.
Qed.

End Labels.

(** X1 at the name Dropbox. *)
Lemma registry_escapes_invalid_utf8_witness :
  ByName 0 "linux" (fun s => s) "Dropbox" = Some Dropbox /\
  Has Dropbox EncodeInvalidUtf8 = true.
Proof.
  split; [reflexivity|].
  apply (registry_escapes_invalid_utf8 0 "linux" (fun s => s) "Dropbox");
    [reflexivity|].
  cbv. intuition discriminate.
Defined.

(** X2 at the name onedrive, with the flags of [Base] for
    [encoder.Standard]. *)
Lemma registry_extends_base_or_display_witness :
  OneDrive Base = Drive \/ extends (OneDrive Base) Base \/
  extends (OneDrive Base) (Display Base).
Proof.
  apply (registry_extends_base_or_display Base "linux" (fun s => s)
           "onedrive").
  reflexivity.
Defined.

(** X5 at the name mega. *)
Lemma ByName_standard_witness :
  ByName 0 "linux" (fun s => s) "mega" = ByName 7 "linux" (fun s => s) "mega".
Proof.
  apply ByName_standard. cbv. intuition discriminate.
Defined.

(** X8 at the flag for a trailing period. *)
Lemma OneDrive_has_windows_rules_witness :
  Has (OneDrive 0) EncodeRightPeriod = true.
Proof.
  apply OneDrive_has_windows_rules.
  - cbn. tauto.
  - reflexivity.
  - reflexivity.
  - discriminate.
Defined.

(** X6 at the name Local-Windows. *)
Lemma ByName_ascii_shape_witness :
  (2 <= String.length "Local-Windows" <= 18)%nat /\
  forallb isLabelByte (list_ascii_of_string "Local-Windows") = true.
Proof.
  apply (ByName_ascii_shape 0 "linux" (fun s => s) "Local-Windows").
  - reflexivity.
  - discriminate.
Defined.

End registry_extra.

(* ================================================================== *)
(** ** What an encoded name looks like *)

Module output_facts.

Import encoder strings encodings marked conformance strings_facts
  roundtrip_facts registry_facts scenario_facts registry_extra.
Local Open Scope list_scope.

(** *** Bytes of the output *)

Lemma substitute_bytes t b :
  isASCIIByte t = true -> In b (substitute t) -> isASCIIByte b = false.
Proof.
  intros Ht Hb. destruct (substitute_chunk t Ht)
    as (x & y & z & Hs & _ & L & Cy & Cz).
  rewrite Hs in Hb. cbn in Hb.
  destruct Hb as [<-|[<-|[<-|[]]]];
    [now apply lead_not_ascii|now apply cont_not_ascii..].
Qed.

Lemma not_ascii_content m b : isASCIIByte b = false -> contentTrigger m b = false.
Proof.
  intros H. destruct (contentTrigger m b) eqn:E; [|reflexivity].
  rewrite (contentTrigger_ascii _ _ E) in H. discriminate.
Qed.

Lemma encodeContent_bytes m s b :
  In b (encodeContent m s) -> contentTrigger m b = false.
Proof.
  unfold encodeContent. intros H. apply in_flat_map in H.
  destruct H as (x & _ & H). destruct (contentTrigger m x) eqn:E.
  - apply not_ascii_content.
    exact (substitute_bytes x b (contentTrigger_ascii _ _ E) H).
  - destruct H as [<-|[]]. exact E.
Qed.

Lemma encodeLeft_bytes m s b :
  In b (encodeLeft m s) -> In b s \/ isASCIIByte b = false.
Proof.
  destruct s as [|x r]; cbn; [tauto|].
  destruct (leftTrigger m x) eqn:E; [|tauto].
  intros H. apply in_app_or in H. destruct H as [H|H]; [right|tauto].
  exact (substitute_bytes x b (leftTrigger_ascii _ _ E) H).
Qed.

Lemma encodeRight_bytes m s b :
  In b (encodeRight m s) -> In b s \/ isASCIIByte b = false.
Proof.
  destruct (snoc_case _ s) as [->|(i & e & ->)]; [cbn; tauto|].
  unfold encodeRight. rewrite unsnoc_app.
  destruct (rightTrigger m e) eqn:E; [|tauto].
  intros H. apply in_app_or in H. destruct H as [H|H].
  - left. apply in_or_app. now left.
  - right. exact (substitute_bytes e b (rightTrigger_ascii _ _ E) H).
Qed.

Lemma segments_bytes s seg b : In seg (segments s) -> In b seg -> In b s.
Proof.
  revert seg. induction s as [|x r IH]; intros seg Hs Hb.
  - cbn in Hs. destruct Hs as [<-|[]]. contradiction.
  - cbn [segments] in Hs. destruct (isSlash x).
    + destruct Hs as [<-|Hs]; [contradiction|]. right. eauto.
    + destruct (segments r) as [|s1 rest] eqn:E.
      * destruct Hs as [<-|[]]. destruct Hb as [<-|[]]. now left.
      * destruct Hs as [<-|Hs].
        -- destruct Hb as [<-|Hb]; [now left|right].
           apply (IH s1); [now left|assumption].
        -- right. apply (IH seg); [now right|assumption].
Qed.

Lemma segments_two s s1 s2 rest : segments s = s1 :: s2 :: rest -> In x2f s.
Proof.
  revert s1 s2 rest. induction s as [|x r IH]; intros s1 s2 rest H.
  - discriminate.
  - cbn [segments] in H. destruct (isSlash x) eqn:E.
    + left. unfold isSlash in E. symmetry. now apply byte_eqb_eq.
    + right. destruct (segments r) as [|t1 [|t2 trest]] eqn:Er;
        try discriminate. eapply IH. reflexivity.
Qed.

Lemma joinSegments_bytes ls b :
  In b (joinSegments ls) ->
  (exists seg, In seg ls /\ In b seg) \/
  (b = x2f /\ exists s1 s2 rest, ls = s1 :: s2 :: rest).
Proof.
  induction ls as [|seg rest IH]; [contradiction|].
  cbn [joinSegments]. destruct rest as [|seg' rest'].
  - intros H. left. exists seg. split; [now left|assumption].
  - intros H. apply in_app_or in H. destruct H as [H|[<-|H]].
    + left. exists seg. split; [now left|assumption].
    + right. split; [reflexivity|eauto].
    + destruct (IH H) as [(sg & Hs & Hb)|(-> & _)].
      * left. exists sg. split; [now right|assumption].
      * right. split; [reflexivity|eauto].
Qed.

Lemma encodePosition_bytes m s b :
  In b (encodePosition m s) -> In b s \/ isASCIIByte b = false.
Proof.
  unfold encodePosition, onSegments. intros H.
  apply joinSegments_bytes in H.
  destruct H as [(seg & Hs & Hb)|(-> & s1 & s2 & rest & E)].
  - apply in_map_iff in Hs. destruct Hs as (sg & <- & Hsg).
    apply encodeRight_bytes in Hb. destruct Hb as [Hb|Hb]; [|now right].
    apply encodeLeft_bytes in Hb. destruct Hb as [Hb|Hb]; [|now right].
    left. exact (segments_bytes _ _ _ Hsg Hb).
  - left. destruct (segments s) as [|t1 [|t2 trest]] eqn:Es; try discriminate.
    exact (segments_two _ _ _ _ Es).
Qed.

Lemma escapeByte_bytes x b : In b (escapeByte x) -> isASCIIByte b = false.
Proof.
  destruct x; cbn; intros H;
    repeat (destruct H as [<-|H]; [reflexivity|]); contradiction.
Qed.

Lemma escapeInvalid_bytes s :
  forall k b, In b (escapeInvalid k s) -> In b s \/ isASCIIByte b = false.
Proof.
  induction s as [|x r IH]; intros k b H; [destruct k; contradiction|].
  destruct k as [|k']; cbn [escapeInvalid] in H.
  - destruct (runeLen (x :: r)).
    + apply in_app_or in H. destruct H as [H|H].
      * right. exact (escapeByte_bytes _ _ H).
      * destruct (IH _ _ H); [left; now right|now right].
    + destruct H as [<-|H]; [left; now left|].
      destruct (IH _ _ H); [left; now right|now right].
  - destruct H as [<-|H]; [left; now left|].
    destruct (IH _ _ H); [left; now right|now right].
Qed.

(** No byte of an encoded name is targeted by a content rule. *)
Lemma Encode_bytes m s b : In b (Encode m s) -> contentTrigger m b = false.
Proof.
  unfold Encode, encodeRules. cbv zeta.
  generalize (quoteReserved m 0 s) as x. intros x H.
  assert (P : In b (encodePosition m (encodeContent m x)) \/
              isASCIIByte b = false).
  { destruct (Has m EncodeInvalidUtf8); [|now left].
    now apply escapeInvalid_bytes in H. }
  destruct P as [P|P]; [|now apply not_ascii_content].
  apply encodePosition_bytes in P.
  destruct P as [P|P]; [|now apply not_ascii_content].
  exact (encodeContent_bytes _ _ _ P).
Qed.

(** *** The first byte of the output *)

Lemma encodeLeft_head m s b r :
  encodeLeft m s = b :: r -> leftTrigger m b = false.
Proof.
  destruct s as [|x t]; [discriminate|]. cbn.
  destruct (leftTrigger m x) eqn:E.
  - destruct (substitute_chunk x (leftTrigger_ascii _ _ E))
      as (a & c & d & Hs & _ & L & _).
    rewrite Hs. cbn. intros H. injection H as <- _.
    apply not_ascii_left. now apply lead_not_ascii.
  - intros H. injection H as <- _. exact E.
Qed.

Lemma encodeRight_head m s b r :
  encodeRight m s = b :: r ->
  (exists r', s = b :: r') \/ isASCIIByte b = false.
Proof.
  destruct (snoc_case _ s) as [->|(i & e & ->)]; [discriminate|].
  unfold encodeRight. rewrite unsnoc_app.
  destruct (rightTrigger m e) eqn:E; [|eauto].
  destruct i as [|x i']; cbn.
  - destruct (substitute_chunk e (rightTrigger_ascii _ _ E))
      as (a & c & d & Hs & _ & L & _).
    rewrite Hs. intros H. injection H as <- _. right.
    now apply lead_not_ascii.
  - intros H. injection H as <- _. eauto.
Qed.

Lemma segments_nonempty s : exists seg rest, segments s = seg :: rest.
Proof.
  destruct s as [|x r]; cbn; [eauto|].
  destruct (isSlash x); [eauto|]. destruct (segments r); eauto.
Qed.

Lemma encodePosition_head m s b r :
  encodePosition m s = b :: r -> leftTrigger m b = false.
Proof.
  unfold encodePosition, onSegments.
  destruct (segments_nonempty s) as (seg & rest & ->). cbn [map joinSegments].
  assert (F : forall t, encodeRight m (encodeLeft m seg) = b :: t ->
                        leftTrigger m b = false).
  { intros t H. apply encodeRight_head in H.
    destruct H as [(r' & H)|H]; [|now apply not_ascii_left].
    exact (encodeLeft_head _ _ _ _ H). }
  destruct rest as [|seg' rest']; cbn [map]; [apply F|].
  destruct (encodeRight m (encodeLeft m seg)) as [|x t] eqn:E.
  - cbn. intros H. injection H as <- _. reflexivity.
  - cbn. intros H. injection H as <- _. now apply (F t).
Qed.

Lemma escapeInvalid_head s b r :
  escapeInvalid 0 s = b :: r -> (exists r', s = b :: r') \/ b = xe2.
Proof.
  destruct s as [|x t]; [discriminate|]. cbn [escapeInvalid].
  destruct (runeLen (x :: t)).
  - cbn. intros H. injection H as <- _. now right.
  - intros H. injection H as <- _. eauto.
Qed.

(** An encoded name does not begin with a byte that a leading rule
    targets. *)
Lemma Encode_head m s b r : Encode m s = b :: r -> leftTrigger m b = false.
Proof.
  unfold Encode, encodeRules. cbv zeta.
  destruct (Has m EncodeInvalidUtf8); [|apply encodePosition_head].
  intros H. apply escapeInvalid_head in H. destruct H as [(r' & H)| -> ].
  - exact (encodePosition_head _ _ _ _ H).
  - reflexivity.
Qed.

(** *** The last byte of the output *)

Lemma lastByte_snoc (s : Name) e : lastByte (s ++ [e]) = Some e.
Proof.
  induction s as [|x r IH]; [reflexivity|].
  cbn [app lastByte]. rewrite IH. destruct r; reflexivity.
Qed.

Lemma lastByte_app (x y : Name) :
  y <> [] -> lastByte (x ++ y) = lastByte y.
Proof.
  intros N. destruct (snoc_case _ y) as [->|(y' & e & ->)]; [now elim N|].
  now rewrite app_assoc, !lastByte_snoc.
Qed.

Lemma encodeRight_last m s e :
  lastByte (encodeRight m s) = Some e -> rightTrigger m e = false.
Proof.
  destruct (snoc_case _ s) as [->|(i & x & ->)]; [discriminate|].
  unfold encodeRight. rewrite unsnoc_app.
  destruct (rightTrigger m x) eqn:E.
  - destruct (substitute_chunk x (rightTrigger_ascii _ _ E))
      as (a & c & d & Hs & _ & _ & _ & Cd).
    rewrite Hs. change [a; c; d] with ([a; c] ++ [d]).
    rewrite app_assoc, lastByte_snoc. intros H. injection H as <-.
    apply not_ascii_right. now apply cont_not_ascii.
  - rewrite lastByte_snoc. intros H. injection H as <-. exact E.
Qed.

Lemma joinSegments_last ls e :
  lastByte (joinSegments ls) = Some e ->
  (exists seg, In seg ls /\ lastByte seg = Some e) \/ e = x2f.
Proof.
  induction ls as [|seg rest IH]; [discriminate|].
  cbn [joinSegments]. destruct rest as [|seg' rest'].
  - intros H. left. exists seg. split; [now left|assumption].
  - rewrite lastByte_app by discriminate.
    destruct (joinSegments (seg' :: rest')) as [|y t] eqn:E.
    + cbn. intros H. injection H as <-. now right.
    + change (lastByte (x2f :: y :: t)) with (lastByte (y :: t)).
      intros H. destruct (IH H) as [(sg & Hs & Hl)| -> ]; [|now right].
      left. exists sg. split; [now right|assumption].
Qed.

Lemma encodePosition_last m s e :
  lastByte (encodePosition m s) = Some e -> rightTrigger m e = false.
Proof.
  unfold encodePosition, onSegments. intros H.
  apply joinSegments_last in H. destruct H as [(seg & Hs & Hl)| -> ].
  - apply in_map_iff in Hs. destruct Hs as (sg & <- & _).
    exact (encodeRight_last _ _ _ Hl).
  - reflexivity.
Qed.

Lemma escapeByte_last x : exists i e, escapeByte x = i ++ [e] /\ isASCIIByte e = false.
Proof.
  exists (marker ++ [byteOf (0xC0 + code x / 64)]),
         (byteOf (0x80 + code x mod 64)).
  split; [unfold escapeByte; now rewrite <- app_assoc|].
  destruct x; reflexivity.
Qed.

Lemma escapeInvalid_nil k s : escapeInvalid k s = [] -> s = [].
Proof.
  destruct s as [|x r]; [reflexivity|]. destruct k; cbn [escapeInvalid].
  - destruct (runeLen (x :: r)); [|discriminate].
    unfold escapeByte, marker. discriminate.
  - discriminate.
Qed.

Lemma escapeInvalid_last s :
  forall k e, lastByte (escapeInvalid k s) = Some e ->
              lastByte s = Some e \/ isASCIIByte e = false.
Proof.
  induction s as [|x r IH]; intros k e H; [destruct k; discriminate|].
  assert (Step : forall k', lastByte (x :: escapeInvalid k' r) = Some e ->
                            lastByte (x :: r) = Some e \/ isASCIIByte e = false).
  { intros k' H'. destruct (escapeInvalid k' r) as [|y t] eqn:E.
    - apply escapeInvalid_nil in E. subst r. now left.
    - change (lastByte (x :: y :: t)) with (lastByte (y :: t)) in H'.
      rewrite <- E in H'. destruct (IH _ _ H') as [L|L]; [left|now right].
      destruct r; [discriminate|exact L]. }
  destruct k as [|k']; cbn [escapeInvalid] in H; [|now apply (Step k')].
  destruct (runeLen (x :: r)); [|now apply (Step n)].
  destruct (escapeInvalid 0 r) as [|y t] eqn:E.
  - rewrite app_nil_r in H. right.
    destruct (escapeByte_last x) as (i & z & Ex & Hz).
    rewrite Ex, lastByte_snoc in H. injection H as <-. exact Hz.
  - rewrite lastByte_app in H by discriminate. rewrite <- E in H.
    destruct (IH _ _ H) as [L|L]; [left|now right].
    destruct r; [discriminate|exact L].
Qed.

(** An encoded name does not end with a byte that a trailing rule
    targets. *)
Lemma Encode_last m s e :
  lastByte (Encode m s) = Some e -> rightTrigger m e = false.
Proof.
  unfold Encode, encodeRules. cbv zeta.
  destruct (Has m EncodeInvalidUtf8); [|apply encodePosition_last].
  intros H. apply escapeInvalid_last in H. destruct H as [H|H].
  - exact (encodePosition_last _ _ _ H).
  - now apply not_ascii_right.
Qed.

(** *** Valid UTF-8 *)

Lemma runeLen_escape b r n :
  runeLen (b :: r) = S n -> runeLen (b :: escapeInvalid n r) = S n.
Proof.
  unfold runeLen. destruct (isASCIIByte b).
  { intros H. injection H as <-. reflexivity. }
  destruct r as [|b1 r1]; [discriminate|].
  destruct (twoOk b b1) eqn:E2.
  { intros H. injection H as <-. cbn [escapeInvalid]. now rewrite E2. }
  destruct r1 as [|b2 r2]; [discriminate|].
  destruct (threeOk b b1 b2) eqn:E3.
  { intros H. injection H as <-. cbn [escapeInvalid]. now rewrite E2, E3. }
  destruct r2 as [|b3 r3]; [discriminate|].
  destruct (fourOk b b1 b2 b3) eqn:E4; [|discriminate].
  intros H. injection H as <-. cbn [escapeInvalid]. now rewrite E2, E3, E4.
Qed.

Lemma valid_escapeByte b r :
  isASCIIByte b = false ->
  validFrom 0 (escapeByte b ++ r) = validFrom 0 r.
Proof. destruct b; try discriminate; intros _; reflexivity. Qed.

Lemma escapeInvalid_valid s :
  forall k, conts k s = true -> validFrom k (escapeInvalid k s) = true.
Proof.
  induction s as [|b r IH]; intros k Hc.
  - destruct k; [reflexivity|discriminate].
  - destruct k as [|k'].
    + cbn [escapeInvalid]. destruct (runeLen (b :: r)) as [|n] eqn:E.
      * rewrite (valid_escapeByte b _ (runeLen_invalid _ _ E)).
        now apply IH.
      * cbn [validFrom]. rewrite (runeLen_escape _ _ _ E).
        apply IH. exact (runeLen_conts _ _ _ E).
    + cbn [conts] in Hc. apply andb_true_iff in Hc. destruct Hc as [_ Hc].
      cbn [escapeInvalid validFrom]. now apply IH.
Qed.

(** With the escape of invalid UTF-8 the encoded name is valid UTF-8. *)
Lemma Encode_valid m s :
  Has m EncodeInvalidUtf8 = true -> validUTF8 (Encode m s) = true.
Proof.
  intros H. unfold Encode, encodeRules, validUTF8. cbv zeta. rewrite H.
  now apply escapeInvalid_valid.
Qed.

(** *** What a flag makes a trigger *)

Ltac orb_true :=
  repeat first [ rewrite orb_true_r | progress cbn [andb orb] ]; reflexivity.

Lemma content_zero m : Has m EncodeZero = true -> contentTrigger m x00 = true.
Proof. intros H. unfold contentTrigger. rewrite H. reflexivity. Qed.

Lemma content_slash m : Has m EncodeSlash = true -> contentTrigger m x2f = true.
Proof. intros H. unfold contentTrigger. rewrite H. reflexivity. Qed.

Lemma content_win m b :
  Has m EncodeWin = true -> isWin b = true -> contentTrigger m b = true.
Proof. intros H W. unfold contentTrigger. rewrite H, W. orb_true. Qed.

Lemma content_backslash m :
  Has m EncodeBackSlash = true -> contentTrigger m x5c = true.
Proof. intros H. unfold contentTrigger. rewrite H. reflexivity. Qed.

Lemma content_del m : Has m EncodeDel = true -> contentTrigger m x7f = true.
Proof. intros H. unfold contentTrigger. rewrite H. reflexivity. Qed.

Lemma content_ctl m b :
  Has m EncodeCtl = true -> isCtl b = true -> contentTrigger m b = true.
Proof. intros H W. unfold contentTrigger. rewrite H, W. orb_true. Qed.

Lemma content_hash m b :
  Has m EncodeHashPercent = true -> isHashPercent b = true ->
  contentTrigger m b = true.
Proof. intros H W. unfold contentTrigger. rewrite H, W. orb_true. Qed.

Lemma left_space m : Has m EncodeLeftSpace = true -> leftTrigger m x20 = true.
Proof. intros H. unfold leftTrigger. rewrite H. reflexivity. Qed.

Lemma left_tilde m : Has m EncodeLeftTilde = true -> leftTrigger m x7e = true.
Proof. intros H. unfold leftTrigger. rewrite H. reflexivity. Qed.

Lemma right_space m : Has m EncodeRightSpace = true -> rightTrigger m x20 = true.
Proof. intros H. unfold rightTrigger. rewrite H. reflexivity. Qed.

Lemma right_period m :
  Has m EncodeRightPeriod = true -> rightTrigger m x2e = true.
Proof. intros H. unfold rightTrigger. rewrite H. reflexivity. Qed.

Ltac not_listed Hb Hin :=
  cbn [In app] in Hin;
  repeat (destruct Hin as [<-|Hin]; [vm_compute in Hb; discriminate Hb|]);
  exact Hin.

(** X12. Under the Windows local encoding the encoded name, whatever the
    name, holds none of the characters listed as replaced, no slash, no NUL
    and no other byte below 0x20 (the C0 control characters; DEL, 0x7F, is
    not among them), does not end with a space or a period, and is valid
    UTF-8. *)
Theorem LocalWindows_output (s : Name) :
  (forall b, In b (Encode LocalWindows s) ->
             ~ In b (x00 :: x2f :: windowsReserved) /\ isCtl b = false) /\
  (forall e, lastByte (Encode LocalWindows s) = Some e ->
             e <> x20 /\ e <> x2e) /\
  validUTF8 (Encode LocalWindows s) = true.
Proof.
  split; [|split].
  - intros b Hb. apply Encode_bytes in Hb. split.
    + intros Hin. unfold windowsReserved in Hin. not_listed Hb Hin.
    + destruct (isCtl b) eqn:E; [|reflexivity].
      rewrite (content_ctl LocalWindows b eq_refl E) in Hb. discriminate.
  - intros e He. apply Encode_last in He.
    split; intros ->; vm_compute in He; discriminate.
  - now apply Encode_valid.
Qed.

(** X14. Under the OpenDrive encoding the encoded name holds none of the
    characters listed as replaced, no slash and no NUL, neither begins nor
    ends with ASCII whitespace, and is valid UTF-8. *)
Theorem OpenDrive_output (s : Name) :
  (forall b, In b (Encode OpenDrive s) ->
             ~ In b (x00 :: x2f :: windowsReserved)) /\
  (forall b r, Encode OpenDrive s = b :: r -> ~ In b asciiWhitespace) /\
  (forall e, lastByte (Encode OpenDrive s) = Some e ->
             ~ In e asciiWhitespace) /\
  validUTF8 (Encode OpenDrive s) = true.
Proof.
  split; [|split; [|split]].
  - intros b Hb. apply Encode_bytes in Hb.
    intros Hin. unfold windowsReserved in Hin. not_listed Hb Hin.
  - intros b r Hb. apply Encode_head in Hb.
    intros Hin. unfold asciiWhitespace in Hin. not_listed Hb Hin.
  - intros e He. apply Encode_last in He.
    intros Hin. unfold asciiWhitespace in Hin. not_listed He Hin.
  - now apply Encode_valid.
Qed.

(** X15. Under the Dropbox encoding the encoded name holds no slash, no
    backslash, no DEL and no NUL, does not end with a space, and is valid
    UTF-8. *)
Theorem Dropbox_output (s : Name) :
  (forall b, In b (Encode Dropbox s) -> ~ In b [x00; x2f; x5c; x7f]) /\
  (forall e, lastByte (Encode Dropbox s) = Some e -> e <> x20) /\
  validUTF8 (Encode Dropbox s) = true.
Proof.
  split; [|split].
  - intros b Hb. apply Encode_bytes in Hb. intros Hin. not_listed Hb Hin.
  - intros e He. apply Encode_last in He.
    intros ->; vm_compute in He; discriminate.
  - now apply Encode_valid.
Qed.

(** X13. Under the OneDrive encoding, whatever [encoder.Standard] is, the
    encoded name holds none of the characters listed as replaced (number
    sign and percent sign among them), does not begin with a tilde or a
    space, does not end with a space or a period, and is valid UTF-8. *)
Theorem OneDrive_output (Standard : MultiEncoder) (s : Name) :
  (forall b, In b (Encode (OneDrive Standard) s) ->
             ~ In b (windowsReserved ++ [x23; x25])) /\
  (forall b r, Encode (OneDrive Standard) s = b :: r ->
               b <> x7e /\ b <> x20) /\
  (forall e, lastByte (Encode (OneDrive Standard) s) = Some e ->
             e <> x20 /\ e <> x2e) /\
  validUTF8 (Encode (OneDrive Standard) s) = true.
Proof.
  set (m := OneDrive Standard).
  assert (HW : Has m EncodeWin = true) by (unfold m, OneDrive; has_flag).
  assert (HB : Has m EncodeBackSlash = true) by (unfold m, OneDrive; has_flag).
  assert (HH : Has m EncodeHashPercent = true) by (unfold m, OneDrive; has_flag).
  assert (HLS : Has m EncodeLeftSpace = true) by (unfold m, OneDrive; has_flag).
  assert (HLT : Has m EncodeLeftTilde = true) by (unfold m, OneDrive; has_flag).
  assert (HRS : Has m EncodeRightSpace = true) by (unfold m, OneDrive; has_flag).
  assert (HRP : Has m EncodeRightPeriod = true) by (unfold m, OneDrive; has_flag).
  assert (HU : Has m EncodeInvalidUtf8 = true) by (unfold m, OneDrive; has_flag).
  split; [|split; [|split]].
  - intros b Hb. apply Encode_bytes in Hb. intros Hin.
    unfold windowsReserved in Hin. cbn [In app] in Hin.
    repeat (destruct Hin as [<-|Hin];
            [ match type of Hb with
              | contentTrigger _ ?c = _ =>
                  first [ rewrite (content_win m c HW eq_refl) in Hb
                        | rewrite (content_backslash m HB) in Hb
                        | rewrite (content_hash m c HH eq_refl) in Hb ]
              end;
              discriminate Hb | ]).
    exact Hin.
  - intros b r Hb. apply Encode_head in Hb. split; intros ->.
    + rewrite (left_tilde m HLT) in Hb. discriminate.
    + rewrite (left_space m HLS) in Hb. discriminate.
  - intros e He. apply Encode_last in He. split; intros ->.
    + rewrite (right_space m HRS) in He. discriminate.
    + rewrite (right_period m HRP) in He. discriminate.
  - now apply Encode_valid.
Qed.

(** X16. Under the Box encoding, whatever [encoder.Standard] is, the
    encoded name holds no backslash, does not end with a space, and is valid
    UTF-8. *)
Theorem Box_output (Standard : MultiEncoder) (s : Name) :
  (forall b, In b (Encode (Box Standard) s) -> b <> x5c) /\
  (forall e, lastByte (Encode (Box Standard) s) = Some e -> e <> x20) /\
  validUTF8 (Encode (Box Standard) s) = true.
Proof.
  set (m := Box Standard).
  assert (HB : Has m EncodeBackSlash = true) by (unfold m, Box; has_flag).
  assert (HRS : Has m EncodeRightSpace = true) by (unfold m, Box; has_flag).
  assert (HU : Has m EncodeInvalidUtf8 = true) by (unfold m, Box; has_flag).
  split; [|split].
  - intros b Hb. apply Encode_bytes in Hb. intros ->.
    rewrite (content_backslash m HB) in Hb. discriminate.
  - intros e He. apply Encode_last in He. intros ->.
    rewrite (right_space m HRS) in He. discriminate.
  - now apply Encode_valid.
Qed.

(** *** Drive *)

Lemma joinSegments_segments s : joinSegments (segments s) = s.
Proof.
  induction s as [|x r IH]; [reflexivity|].
  destruct (segments_nonempty r) as (seg & rest & E).
  cbn [segments]. rewrite E in *. destruct (isSlash x) eqn:S.
  - unfold isSlash in S. apply byte_eqb_eq in S. subst x.
    change (joinSegments ([] :: seg :: rest))
      with ([] ++ x2f :: joinSegments (seg :: rest)).
    now rewrite IH.
  - destruct rest as [|seg' rest'].
    + cbn in IH |- *. now rewrite IH.
    + change (joinSegments ((x :: seg) :: seg' :: rest'))
        with (x :: (seg ++ x2f :: joinSegments (seg' :: rest'))).
      change (joinSegments (seg :: seg' :: rest'))
        with (seg ++ x2f :: joinSegments (seg' :: rest')) in IH.
      now rewrite IH.
Qed.

Lemma onSegments_id f s : (forall seg, f seg = seg) -> onSegments f s = s.
Proof.
  intros H. unfold onSegments.
  rewrite (map_ext f (fun seg => seg) H), map_id.
  apply joinSegments_segments.
Qed.

Lemma Drive_no_content b : contentTrigger Drive b = false.
Proof. destruct b; reflexivity. Qed.

Lemma Drive_no_left b : leftTrigger Drive b = false.
Proof. destruct b; reflexivity. Qed.

Lemma Drive_no_right b : rightTrigger Drive b = false.
Proof. destruct b; reflexivity. Qed.

Lemma printable_ascii s :
  forallb isPrintable s = true -> forallb isASCIIByte s = true.
Proof.
  intros H. apply forallb_forall. intros b Hb.
  rewrite forallb_forall in H. specialize (H b Hb).
  destruct b; try discriminate H; reflexivity.
Qed.

(** X17. The Drive encoding does not encode the slash nor any other
    printable ASCII character: a name of such characters is encoded as
    itself.  The encoded form of any name is valid UTF-8. *)
Theorem Drive_keeps_slash (s : Name) :
  isPrintable x2f = true /\
  (forallb isPrintable s = true -> Encode Drive s = s) /\
  validUTF8 (Encode Drive s) = true.
Proof.
  split; [reflexivity|]. split; [|now apply Encode_valid].
  intros H. apply printable_ascii in H. unfold Encode.
  rewrite (quote_ascii _ _ H). unfold encodeRules. cbv zeta.
  replace (Has Drive EncodeInvalidUtf8) with true by reflexivity.
  assert (C : encodeContent Drive s = s).
  { unfold encodeContent. clear H. induction s as [|b r IH]; [reflexivity|].
    cbn [flat_map]. now rewrite Drive_no_content, IH. }
  assert (Q : encodePosition Drive s = s).
  { apply onSegments_id. intros seg.
    assert (L : encodeLeft Drive seg = seg).
    { destruct seg as [|b r]; [reflexivity|]. cbn.
      now rewrite Drive_no_left. }
    rewrite L. unfold encodeRight.
    destruct (unsnoc seg) as [[i e]|]; [|reflexivity].
    now rewrite Drive_no_right. }
  rewrite C, Q. rewrite <- (app_nil_r s) at 1.
  rewrite (escapeInvalid_ascii _ _ H). cbn [escapeInvalid]. apply app_nil_r.
Qed.

(** X17 at a name with two slashes and a space. *)
Lemma Drive_keeps_slash_witness :
  forallb isPrintable (bytes "a/b c/d.txt") = true /\
  Encode Drive (bytes "a/b c/d.txt") = bytes "a/b c/d.txt".
Proof.
  split; [reflexivity|].
  exact (proj1 (proj2 (Drive_keeps_slash (bytes "a/b c/d.txt"))) eq_refl).
Defined.

(** X9. The substitute of each character in the replacement lists of the
    comments of [encodings.go] is the UTF-8 form of the character listed as
    its replacement. *)
Theorem documented_substitutes :
  Forall (fun p => substitute (fst p) = utf8Rune3 (snd p))
         documentedReplacements.
Proof. repeat constructor. Qed.

Section Registry.

Variable Standard : MultiEncoder.
Variable GOOS : string.
Variable unicodeLower : string -> string.

(** X10. For every name that [ByName] resolves, the names base, display,
    local, local-unix and unix apart, the encoded form of every name is
    valid UTF-8. *)
Theorem registry_output_valid_utf8 (n : string) (P : MultiEncoder) (s : Name) :
  ByName Standard GOOS unicodeLower n = Some P ->
  ~ In (ToLower unicodeLower n)
       ["base"; "display"; "local"; "local-unix"; "unix"]%string ->
  validUTF8 (Encode P s) = true.
Proof.
  intros H N. apply Encode_valid. utf8_flag H N.
Qed.

(** X11. An encoding that activates the flags of [Base] leaves no slash and
    no NUL in an encoded name; so does every encoding that [ByName] returns
    and that extends [Base]. *)
Theorem Base_output_no_slash (n : string) (P : MultiEncoder) (s : Name) :
  ByName Standard GOOS unicodeLower n = Some P ->
  extends P Base ->
  forall b, In b (Encode P s) -> b <> x2f /\ b <> x00.
Proof.
  intros _ E b Hb. apply Encode_bytes in Hb.
  assert (Hs : Has P EncodeSlash = true).
  { apply (extends_Has P Base); [exact E|reflexivity]. }
  assert (Hz : Has P EncodeZero = true).
  { apply (extends_Has P Base); [exact E|reflexivity]. }
  split; intros ->.
  - rewrite (content_slash P Hs) in Hb. discriminate.
  - rewrite (content_zero P Hz) in Hb. discriminate.
Qed.

End Registry.

(** X10 at the name box, on a name that ends with a byte that is not
    UTF-8. *)
Lemma registry_output_valid_utf8_witness :
  validUTF8 (Encode (Box 0) (bytes "a" ++ [xff])) = true.
Proof.
  apply (registry_output_valid_utf8 0 "linux" (fun s => s) "box");
    [reflexivity|].
  cbv. intuition discriminate.
Defined.

(** X11 at the name mega, on the name of a slash alone. *)
Lemma Base_output_no_slash_witness :
  In xef (Encode Mega [x2f]) /\ xef <> x2f /\ xef <> x00.
Proof.
  assert (H : In xef (Encode Mega [x2f])) by (cbn; tauto).
  split; [exact H|].
  apply (Base_output_no_slash 0 "linux" (fun s => s) "mega" Mega [x2f]);
    [reflexivity|reflexivity|exact H].
Defined.

Section Distinct.

Variable Standard : MultiEncoder.
Variable GOOS : string.
Variable unicodeLower : string -> string.

(** X18. Under an encoding that [ByName] returns, two different names
    without reserved sequences never get the same encoded name. *)
Theorem distinct_names_distinct_encodings
    (n : string) (P : MultiEncoder) (s1 s2 : Name) :
  ByName Standard GOOS unicodeLower n = Some P ->
  reservedFree P s1 = true -> reservedFree P s2 = true ->
  s1 <> s2 -> Encode P s1 <> Encode P s2.
Proof.
  intros _ _ _ N E. apply N.
  rewrite <- (Decode_Encode P s1), <- (Decode_Encode P s2).
  now rewrite E.
Qed.

End Distinct.

(** X18 at the name dropbox, on a name and the same name with a space
    after it. *)
Lemma distinct_names_distinct_encodings_witness :
  Encode Dropbox (bytes "a b") <> Encode Dropbox (bytes "a b ").
Proof.
  apply (distinct_names_distinct_encodings 0 "linux" (fun s => s) "dropbox");
    try reflexivity.
  discriminate.
Defined.

End output_facts.
